(** * XORWOW engine of rocRAND: shallow embedding and verified properties

    Source: [library/include/rocrand_xorwow.h].

    Machine integers are modelled as [Z] with the wrap-around written out:
    an [unsigned int] is a [Z] in [0, 2^32), an [unsigned long long] a [Z]
    in [0, 2^64).  C arrays ([unsigned int x[5]], the flat jump matrices)
    are [list Z], read with [load] and written with [store]. *)

From Stdlib Require Import ZArith List Lia Bool.
Import ListNotations.
Open Scope Z_scope.

(** ** Machine words *)

(** Truncation to [unsigned int]. *)
Definition wrap32 (z : Z) : Z := z mod 2 ^ 32.

(** Truncation to [unsigned long long]. *)
Definition wrap64 (z : Z) : Z := z mod 2 ^ 64.

(** ** Arrays *)

(** [a[k]] *)
Definition load (k : nat) (a : list Z) : Z := nth k a 0.

(** [a[k] = w].  Writing past the end is undefined in C; the model leaves
    the array unchanged there and every use below stays in range. *)
Fixpoint store (k : nat) (w : Z) (a : list Z) : list Z :=
  match a, k with
  | [], _ => []
  | _ :: t, O => w :: t
  | h :: t, S k' => h :: store k' w t
  end.

(** ** Constants of [rocrand_xorwow_precomputed.h] *)

(** Modelled from the spec: the header [rocrand_xorwow_precomputed.h] is
    absent.  The shift register has five words ([x[5]]). *)
Definition XORWOW_N : nat := 5.

(** Modelled from the spec: the header [rocrand_xorwow_precomputed.h] is
    absent.  A word has 32 bits. *)
Definition XORWOW_M : nat := 32.

(** Modelled from the spec: the header [rocrand_xorwow_precomputed.h] is
    absent.  A jump matrix is square over the 160 state bits; it is stored
    as 160 rows of five words, indexed [i * M * N + j * N + k]. *)
Definition XORWOW_SIZE : nat := XORWOW_M * XORWOW_N * XORWOW_N.

(** ** GF(2) matrix algebra: [namespace detail] *)

Module detail.

(** [copy_mat(dst, src)] *)
Definition copy_mat (dst src : list Z) : list Z :=
  fold_left (fun dst i => store i (load i src) dst) (seq 0 XORWOW_SIZE) dst.

(** [copy_vec(dst, src)] where [dst] points at offset [off] of array [arr]. *)
Definition copy_vec (arr : list Z) (off : nat) (src : list Z) : list Z :=
  fold_left (fun arr i => store (off + i) (load i src) arr) (seq 0 XORWOW_N) arr.

(** The innermost loop of [mul_mat_vec_inplace]:
    [for k < N: r[k] ^= m[base + k]]. *)
Definition xor_row (m : list Z) (base : nat) (r : list Z) : list Z :=
  fold_left (fun r k => store k (Z.lxor (load k r) (load (base + k) m)) r)
            (seq 0 XORWOW_N) r.

(** The test [v[i] & (1 << j)]. *)
Definition bit_set (w : Z) (j : nat) : bool :=
  negb (Z.land w (Z.shiftl 1 (Z.of_nat j)) =? 0).

(** The local accumulator [r] of [mul_mat_vec_inplace(m, v)] at the end of
    the two outer loops, where [v] points at offset [off] of [arr]. *)
Definition mul_mat_vec (m : list Z) (arr : list Z) (off : nat) : list Z :=
  fold_left
    (fun r i =>
       fold_left
         (fun r j =>
            if bit_set (load (off + i) arr) j
            then xor_row m (i * XORWOW_M * XORWOW_N + j * XORWOW_N) r
            else r)
         (seq 0 XORWOW_M) r)
    (seq 0 XORWOW_N) (repeat 0 XORWOW_N).

(** [mul_mat_vec_inplace(m, v)] with [v = arr + off]. *)
Definition mul_mat_vec_inplace (m : list Z) (arr : list Z) (off : nat) : list Z :=
  let r := mul_mat_vec m arr off in
  copy_vec arr off r.

(** [mul_mat_mat_inplace(a, b)] *)
Definition mul_mat_mat_inplace (a b : list Z) : list Z :=
  fold_left (fun a i => mul_mat_vec_inplace b a (i * XORWOW_N))
            (seq 0 (XORWOW_N * XORWOW_M)) a.

End detail.

(** ** Engine state *)

(** [xorwow_engine::xorwow_state].  The two cached Gaussian values are only
    carried, never computed on: they are kept as their bit patterns. *)
Record xorwow_state : Type := mk_state {
  x : list Z;
  d : Z;
  boxmuller_float_state : Z;
  boxmuller_double_state : Z;
  boxmuller_float : Z;
  boxmuller_double : Z
}.

Definition set_x (s : xorwow_state) (v : list Z) : xorwow_state :=
  mk_state v (d s) (boxmuller_float_state s) (boxmuller_double_state s)
           (boxmuller_float s) (boxmuller_double s).

Definition set_d (s : xorwow_state) (w : Z) : xorwow_state :=
  mk_state (x s) w (boxmuller_float_state s) (boxmuller_double_state s)
           (boxmuller_float s) (boxmuller_double s).

Definition set_boxmuller_float_state (s : xorwow_state) (w : Z) : xorwow_state :=
  mk_state (x s) (d s) w (boxmuller_double_state s)
           (boxmuller_float s) (boxmuller_double s).

Definition set_boxmuller_double_state (s : xorwow_state) (w : Z) : xorwow_state :=
  mk_state (x s) (d s) (boxmuller_float_state s) w
           (boxmuller_float s) (boxmuller_double s).

(** [m_state.x[k] = w] *)
Definition set_xk (s : xorwow_state) (k : nat) (w : Z) : xorwow_state :=
  set_x s (store k w (x s)).

(** [xorwow_engine::next] *)
Definition next (s : xorwow_state) : Z * xorwow_state :=
  let t := Z.lxor (load 0 (x s)) (Z.shiftr (load 0 (x s)) 2) in
  let s := set_xk s 0 (load 1 (x s)) in
  let s := set_xk s 1 (load 2 (x s)) in
  let s := set_xk s 2 (load 3 (x s)) in
  let s := set_xk s 3 (load 4 (x s)) in
  let s := set_xk s 4 (Z.lxor (Z.lxor (load 4 (x s)) (wrap32 (Z.shiftl (load 4 (x s)) 4)))
                              (Z.lxor t (wrap32 (Z.shiftl t 1)))) in
  let s := set_d s (wrap32 (d s + 362437)) in
  (wrap32 (d s + load 4 (x s)), s).

(** The state and the output after [k] successive calls of [next]
    (the output of the last call; [0] when [k = 0]). *)
Definition next_n (k : nat) (s : xorwow_state) : Z * xorwow_state :=
  Nat.iter k (fun p => next (snd p)) (0, s).

(** The transition of the shift register alone, read off [next]. *)
Definition advance_x (v : list Z) : list Z :=
  x (snd (next (mk_state v 0 0 0 0 0))).

Section Engine.

(** The table depth and granularity of [rocrand_xorwow_precomputed.h], and
    the platform switch
    [defined(__HIP_PLATFORM_HCC__) && defined(__HIP_DEVICE_COMPILE__)]. *)
Variable XORWOW_JUMP_MATRICES : nat.
Variable XORWOW_JUMP_LOG2 : Z.
Variable hcc_device : bool.

(** The two precomputed tables, [XORWOW_JUMP_MATRICES] flat matrices each. *)
Variable xorwow_jump_matrices : list (list Z).
Variable xorwow_sequence_jump_matrices : list (list Z).

(** The table-driven [while] loop of [jump].  It runs at most
    [XORWOW_JUMP_MATRICES] times, which [fuel] counts. *)
Fixpoint jump_table_loop (fuel : nat) (jump_matrices : list (list Z))
         (mi : nat) (v : Z) (xs : list Z) : nat * Z * list Z :=
  match fuel with
  | O => (mi, v, xs)
  | S fuel' =>
      if (0 <? v) && (mi <? XORWOW_JUMP_MATRICES)%nat then
        let l := if (mi <? XORWOW_JUMP_MATRICES - 1)%nat
                 then XORWOW_JUMP_LOG2 else 1 in
        let xs := N.iter (Z.to_N (Z.land v (Z.shiftl 1 l - 1)))
                         (fun xs => detail.mul_mat_vec_inplace (nth mi jump_matrices []) xs 0)
                         xs in
        jump_table_loop fuel' jump_matrices (S mi) (Z.shiftr v l) xs
      else (mi, v, xs)
  end.

(** The number of calls [mul_mat_vec_inplace(jump_matrices[mi], m_state.x)]
    that the [while] loop of [jump] makes at each position it reaches: the
    loop of [jump_table_loop] with the bound of the inner [for] recorded. *)
Fixpoint jump_table_counts (fuel : nat) (mi : nat) (v : Z) : list N :=
  match fuel with
  | O => []
  | S fuel' =>
      if (0 <? v) && (mi <? XORWOW_JUMP_MATRICES)%nat then
        let l := if (mi <? XORWOW_JUMP_MATRICES - 1)%nat
                 then XORWOW_JUMP_LOG2 else 1 in
        Z.to_N (Z.land v (Z.shiftl 1 l - 1))
          :: jump_table_counts fuel' (S mi) (Z.shiftr v l)
      else []
  end.

(** The linear fallback of the HCC device build:
    [for (v = v << 1; v > 0; v--) mul_mat_vec_inplace(last, x)]. *)
Definition jump_linear (last : list Z) (v : Z) (xs : list Z) : list Z :=
  N.iter (Z.to_N (wrap64 (Z.shiftl v 1)))
         (fun xs => detail.mul_mat_vec_inplace last xs 0) xs.

(** The [do ... while (v > 0)] loop of exponentiation by squaring.  [v] is
    halved in every round, so the 64 bits of an [unsigned long long] bound
    the number of rounds. *)
Fixpoint jump_squaring_loop (fuel : nat) (v : Z) (a b xs : list Z)
  : Z * list Z :=
  match fuel with
  | O => (v, xs)
  | S fuel' =>
      let a := detail.mul_mat_mat_inplace a b in
      let b := detail.copy_mat b a in
      let xs := if negb (Z.land v 1 =? 0)
                then detail.mul_mat_vec_inplace b xs 0 else xs in
      let v := Z.shiftr v 1 in
      if 0 <? v then jump_squaring_loop fuel' v a b xs else (v, xs)
  end.

(** The squaring fallback of NVCC and host code. *)
Definition jump_squaring (last : list Z) (v : Z) (xs : list Z) : list Z :=
  let a := detail.copy_mat (repeat 0 XORWOW_SIZE) last in
  let b := detail.copy_mat (repeat 0 XORWOW_SIZE) a in
  snd (jump_squaring_loop 64 v a b xs).

(** The part of [jump] after the table loop, for either platform. *)
Definition jump_fallback (hcc : bool) (last : list Z) (v : Z) (xs : list Z)
  : list Z :=
  if hcc then jump_linear last v xs else jump_squaring last v xs.

(** [xorwow_engine::jump], on [m_state.x]. *)
Definition jump_x (hcc : bool) (v : Z) (jump_matrices : list (list Z))
           (xs : list Z) : list Z :=
  let '(_, v, xs) := jump_table_loop XORWOW_JUMP_MATRICES jump_matrices 0 v xs in
  if 0 <? v
  then jump_fallback hcc (nth (XORWOW_JUMP_MATRICES - 1) jump_matrices []) v xs
  else xs.

Definition jump (v : Z) (jump_matrices : list (list Z)) (s : xorwow_state)
  : xorwow_state :=
  set_x s (jump_x hcc_device v jump_matrices (x s)).

(** [xorwow_engine::discard] *)
Definition discard (offset : Z) (s : xorwow_state) : xorwow_state :=
  let s := jump offset xorwow_jump_matrices s in
  set_d s (wrap32 (d s + wrap32 (wrap32 offset * 362437))).

(** [xorwow_engine::discard_subsequence] *)
Definition discard_subsequence (subsequence : Z) (s : xorwow_state)
  : xorwow_state :=
  jump subsequence xorwow_sequence_jump_matrices s.

(** The constructor [xorwow_engine(seed, subsequence, offset)].  It writes
    [m_state] field by field; [s] is the storage the object is built in,
    whose two cached Gaussian values the constructor leaves as they are.
    The first line stands for the five-word array [x] of the new object,
    every word of which is assigned before it is read. *)
Definition init (seed subsequence offset : Z) (s : xorwow_state)
  : xorwow_state :=
  let s := set_x s (repeat 0 XORWOW_N) in
  let s := set_xk s 0 123456789 in
  let s := set_xk s 1 362436069 in
  let s := set_xk s 2 521288629 in
  let s := set_xk s 3 88675123 in
  let s := set_xk s 4 5783321 in
  let s := set_d s 6615241 in
  let s0 := Z.lxor (wrap32 seed) 0xaad26b49 in
  let s1 := Z.lxor (wrap32 (Z.shiftr seed 32)) 0xf7dcefdd in
  let t0 := wrap32 (1099087573 * s0) in
  let t1 := wrap32 (2591861531 * s1) in
  let s := set_xk s 0 (wrap32 (load 0 (x s) + t0)) in
  let s := set_xk s 1 (Z.lxor (load 1 (x s)) t0) in
  let s := set_xk s 2 (wrap32 (load 2 (x s) + t1)) in
  let s := set_xk s 3 (Z.lxor (load 3 (x s)) t1) in
  let s := set_xk s 4 (wrap32 (load 4 (x s) + t0)) in
  let s := set_d s (wrap32 (d s + wrap32 (t1 + t0))) in
  let s := discard_subsequence subsequence s in
  let s := discard offset s in
  let s := set_boxmuller_float_state s 0 in
  let s := set_boxmuller_double_state s 0 in
  s.

(** [ROCRAND_XORWOW_DEFAULT_SEED] *)
Definition ROCRAND_XORWOW_DEFAULT_SEED : Z := 0.

(** The default constructor [xorwow_engine()], which delegates to
    [xorwow_engine(ROCRAND_XORWOW_DEFAULT_SEED, 0, 0)]. *)
Definition xorwow_engine_default (s : xorwow_state) : xorwow_state :=
  init ROCRAND_XORWOW_DEFAULT_SEED 0 0 s.

(** [xorwow_engine::operator()] *)
Definition call_operator (s : xorwow_state) : Z * xorwow_state := next s.

(** [rocrand_init(seed, subsequence, offset, state)]: a temporary engine is
    constructed in the storage [tmp] and assigned to [*state], whose old
    value [state] is overwritten as a whole. *)
Definition rocrand_init (seed subsequence offset : Z)
           (tmp state : xorwow_state) : xorwow_state :=
  init seed subsequence offset tmp.

(** [rocrand(state)] *)
Definition rocrand (state : xorwow_state) : Z * xorwow_state := next state.

(** [skipahead(offset, state)] *)
Definition skipahead (offset : Z) (state : xorwow_state) : xorwow_state :=
  discard offset state.

(** [skipahead_subsequence(subsequence, state)] *)
Definition skipahead_subsequence (subsequence : Z) (state : xorwow_state)
  : xorwow_state :=
  discard_subsequence subsequence state.

End Engine.

(** * Vocabulary of the properties *)

(** ** Vectors of five words over GF(2) *)

Definition vzero : list Z := repeat 0 XORWOW_N.

Definition vxor (u w : list Z) : list Z :=
  map (fun k => Z.lxor (load k u) (load k w)) (seq 0 XORWOW_N).

(** The five words of [arr] from offset [off] on. *)
Definition slice (arr : list Z) (off : nat) : list Z :=
  map (fun k => load (off + k) arr) (seq 0 XORWOW_N).

(** ** Matrix-vector product as a GF(2) sum of selected rows *)

(** XOR of the rows [g p], over the positions [p] of [P] selected by [sel]. *)
Definition xsum (sel : nat * nat -> bool) (g : nat * nat -> list Z)
           (P : list (nat * nat)) (acc : list Z) : list Z :=
  fold_left (fun acc p => if sel p then vxor acc (g p) else acc) P acc.

(** The bit positions [(i, j)] in the order the two loops visit them. *)
Definition positions : list (nat * nat) :=
  list_prod (seq 0 XORWOW_N) (seq 0 XORWOW_M).

(** Offset of the row of bit [(i, j)] in a flat matrix. *)
Definition row_off (p : nat * nat) : nat :=
  fst p * XORWOW_M * XORWOW_N + snd p * XORWOW_N.

(** A map of five-word vectors is linear when it preserves zero and XOR. *)
Definition linear (F : list Z -> list Z) : Prop :=
  F vzero = vzero /\
  forall u w, length u = XORWOW_N -> length w = XORWOW_N ->
              F (vxor u w) = vxor (F u) (F w).

(** The matrix-vector product as a function on vectors. *)
Definition mulv (m v : list Z) : list Z := detail.mul_mat_vec m v 0.

(** ** Well-formed words, vectors and states *)

Definition word (w : Z) : Prop := 0 <= w < 2 ^ 32.

Definition wf_vec (v : list Z) : Prop := length v = XORWOW_N /\ Forall word v.

Definition wf_state (s : xorwow_state) : Prop := wf_vec (x s) /\ word (d s).

(** ** The generator core and the constructor *)

(** The new fifth word as a function of the old first and fifth words. *)
Definition mix (x0 x4 : Z) : Z :=
  Z.lxor (Z.lxor x4 (wrap32 (Z.shiftl x4 4)))
         (Z.lxor (Z.lxor x0 (Z.shiftr x0 2))
                 (wrap32 (Z.shiftl (Z.lxor x0 (Z.shiftr x0 2)) 1))).

(** The seed expansion of the constructor: the state before the two
    discards, with the two cache flags already cleared. *)
Definition seeded (seed : Z) (s : xorwow_state) : xorwow_state :=
  let s0 := Z.lxor (wrap32 seed) 0xaad26b49 in
  let s1 := Z.lxor (wrap32 (Z.shiftr seed 32)) 0xf7dcefdd in
  let t0 := wrap32 (1099087573 * s0) in
  let t1 := wrap32 (2591861531 * s1) in
  mk_state [wrap32 (123456789 + t0); Z.lxor 362436069 t0;
            wrap32 (521288629 + t1); Z.lxor 88675123 t1;
            wrap32 (5783321 + t0)]
           (wrap32 (6615241 + wrap32 (t1 + t0)))
           0 0 (boxmuller_float s) (boxmuller_double s).

(** ** The matrix of a linear map and the tables of powers *)

(** The vector with only bit [j] of word [i] set, for [p = (i, j)]. *)
Definition unit_vec (p : nat * nat) : list Z :=
  store (fst p) (Z.shiftl 1 (Z.of_nat (snd p))) vzero.

(** The flat matrix, in the layout [mul_mat_vec_inplace] reads, whose row
    for bit [(i, j)] is the image of [unit_vec (i, j)]. *)
Definition matrix_of (F : list Z -> list Z) : list Z :=
  map (fun q => load (q mod XORWOW_N)
                     (F (unit_vec ((q / XORWOW_N) / XORWOW_M,
                                   (q / XORWOW_N) mod XORWOW_M))))%nat
      (seq 0 XORWOW_SIZE).

(** The step table of depth [depth] and granularity [log2]:
    entry [i] is the matrix of [unit_steps * 2^(log2 * i)] single steps. *)
Definition power_table (depth : nat) (log2 unit_steps : Z) : list (list Z) :=
  map (fun i => matrix_of (N.iter (Z.to_N (unit_steps * 2 ^ (log2 * Z.of_nat i)))
                                  advance_x))
      (seq 0 depth).

(** Entry [i] of the table [jump_matrices] is the transition matrix of
    [unit_steps * 2^(XORWOW_JUMP_LOG2 * i)] single steps. *)
Definition table_powers (XORWOW_JUMP_MATRICES : nat) (XORWOW_JUMP_LOG2 : Z)
           (jump_matrices : list (list Z)) (unit_steps : Z) : Prop :=
  forall (i : nat) (xs : list Z),
    (i < XORWOW_JUMP_MATRICES)%nat -> wf_vec xs ->
    mulv (nth i jump_matrices []) xs
    = N.iter (Z.to_N (unit_steps * 2 ^ (XORWOW_JUMP_LOG2 * Z.of_nat i)))
             advance_x xs.

(** ** Readings of the table loop *)

(** Width in bits of the digit that position [i] of the table consumes:
    [XORWOW_JUMP_LOG2] bits, and one bit at the last position. *)
Definition digit_width (XORWOW_JUMP_MATRICES : nat) (XORWOW_JUMP_LOG2 : Z)
           (i : nat) : Z :=
  if (i <? XORWOW_JUMP_MATRICES - 1)%nat then XORWOW_JUMP_LOG2 else 1.

(** The digit of [v] that position [i] of the table consumes. *)
Definition digit (XORWOW_JUMP_MATRICES : nat) (XORWOW_JUMP_LOG2 : Z)
           (v : Z) (i : nat) : Z :=
  (v / 2 ^ (XORWOW_JUMP_LOG2 * Z.of_nat i))
  mod 2 ^ digit_width XORWOW_JUMP_MATRICES XORWOW_JUMP_LOG2 i.

(** The digit of [v] at position [i] when every digit is
    [XORWOW_JUMP_LOG2] bits wide. *)
Definition digit_uniform (XORWOW_JUMP_LOG2 : Z) (v : Z) (i : nat) : Z :=
  (v / 2 ^ (XORWOW_JUMP_LOG2 * Z.of_nat i)) mod 2 ^ XORWOW_JUMP_LOG2.

(** The reading of the table loop in which every position of the table
    consumes a digit of [XORWOW_JUMP_LOG2] bits: position [i] gets as many
    products as digit [i] of [v] in base [2^XORWOW_JUMP_LOG2] says. *)
Definition uniform_digits (XORWOW_JUMP_MATRICES : nat) (XORWOW_JUMP_LOG2 : Z)
           (v : Z) : Prop :=
  forall i : nat,
    (i < XORWOW_JUMP_MATRICES)%nat ->
    nth i (jump_table_counts XORWOW_JUMP_MATRICES XORWOW_JUMP_LOG2
                             XORWOW_JUMP_MATRICES 0 v) 0%N
    = Z.to_N (digit_uniform XORWOW_JUMP_LOG2 v i).

(** ** Test data *)

(** The register after seeding with seed 0. *)
Definition x_seed0 : list Z := x (seeded 0 (mk_state [] 0 0 0 0 0)).

(** * Properties *)

(** ** Arrays *)

Lemma store_length (k : nat) (w : Z) (a : list Z) :
  length (store k w a) = length a.
Proof.
  revert k; induction a as [|h t IH]; intros [|k]; simpl; auto.
Qed.

Lemma load_store (j k : nat) (w : Z) (a : list Z) :
  load j (store k w a)
  = if ((j =? k) && (k <? length a))%nat then w else load j a.
Proof.
  unfold load. revert j k; induction a as [|h t IH]; intros j k.
  - destruct k; simpl; rewrite andb_false_r; reflexivity.
  - destruct k as [|k], j as [|j]; simpl; auto.
Qed.

Ltac nat_cases :=
  repeat match goal with
    | |- context [(?a <=? ?b)%nat] => destruct (Nat.leb_spec a b)
    | |- context [(?a <? ?b)%nat] => destruct (Nat.ltb_spec a b)
    | |- context [(?a =? ?b)%nat] => destruct (Nat.eqb_spec a b)
    end;
  cbn [andb orb negb]; try reflexivity; try lia.

Lemma load_fold_store (f : nat -> Z) (n : nat) :
  forall (s : nat) (a : list Z) (j : nat),
    load j (fold_left (fun a i => store i (f i) a) (seq s n) a)
    = if ((s <=? j) && (j <? s + n) && (j <? length a))%nat
      then f j else load j a.
Proof.
  induction n as [|n IH]; intros s a j; cbn [seq fold_left].
  - nat_cases.
  - rewrite IH, store_length, load_store. nat_cases.
    subst. reflexivity.
Qed.

Lemma fold_store_length (f : nat -> Z) (l : list nat) :
  forall a, length (fold_left (fun a i => store i (f i) a) l a) = length a.
Proof.
  induction l as [|i l IH]; intros a; simpl; auto.
  rewrite IH. apply store_length.
Qed.

Lemma list_eq_load (a b : list Z) :
  length a = length b ->
  (forall j, (j < length a)%nat -> load j a = load j b) ->
  a = b.
Proof.
  intros Hl H. apply (nth_ext a b 0 0 Hl H).
Qed.

Lemma copy_mat_full (dst src : list Z) :
  length dst = XORWOW_SIZE -> length src = XORWOW_SIZE ->
  detail.copy_mat dst src = src.
Proof.
  intros Hd Hs. unfold detail.copy_mat.
  apply list_eq_load.
  - rewrite fold_store_length. congruence.
  - intros j Hj. rewrite fold_store_length in Hj.
    rewrite (load_fold_store (fun i => load i src)).
    nat_cases.
Qed.

(** ** Vectors of five words over GF(2) *)

Lemma length5 (v : list Z) :
  length v = XORWOW_N -> exists a b c e f, v = [a; b; c; e; f].
Proof.
  destruct v as [|a [|b [|c [|e [|f [|g v]]]]]]; simpl; try discriminate.
  intros _. now exists a, b, c, e, f.
Qed.

Ltac vec5 v H :=
  let a := fresh v "0" in let b := fresh v "1" in let c := fresh v "2" in
  let e := fresh v "3" in let f := fresh v "4" in
  destruct (length5 v H) as (a & b & c & e & f & ->).

Lemma vxor_length (u w : list Z) : length (vxor u w) = XORWOW_N.
Proof. reflexivity. Qed.

Lemma vxor_comm (u w : list Z) : vxor u w = vxor w u.
Proof.
  unfold vxor. apply map_ext. intros k. apply Z.lxor_comm.
Qed.

Lemma vxor_assoc (u v w : list Z) : vxor (vxor u v) w = vxor u (vxor v w).
Proof.
  unfold vxor, load; simpl. now rewrite !Z.lxor_assoc.
Qed.

Lemma vxor_zero_r (u : list Z) : length u = XORWOW_N -> vxor u vzero = u.
Proof.
  intros H. vec5 u H. unfold vxor, load; simpl. now rewrite !Z.lxor_0_r.
Qed.

Lemma vxor_zero_l (u : list Z) : length u = XORWOW_N -> vxor vzero u = u.
Proof.
  intros H. rewrite vxor_comm. now apply vxor_zero_r.
Qed.

Lemma vxor_nilpotent (u : list Z) : vxor u u = vzero.
Proof.
  unfold vxor, load; simpl. now rewrite !Z.lxor_nilpotent.
Qed.

Lemma vxor_pad_l (u w : list Z) : vxor (vxor vzero w) u = vxor w u.
Proof.
  reflexivity.
Qed.

Lemma slice_length (arr : list Z) (off : nat) : length (slice arr off) = XORWOW_N.
Proof. reflexivity. Qed.

Lemma slice_0 (v : list Z) : length v = XORWOW_N -> slice v 0 = v.
Proof.
  intros H. vec5 v H. reflexivity.
Qed.

Lemma load_slice (arr : list Z) (off k : nat) :
  (k < XORWOW_N)%nat -> load k (slice arr off) = load (off + k) arr.
Proof.
  intros H. unfold XORWOW_N in H.
  destruct k as [|[|[|[|[|k]]]]]; try lia; reflexivity.
Qed.

Lemma load_vxor (u w : list Z) (k : nat) :
  (k < XORWOW_N)%nat -> load k (vxor u w) = Z.lxor (load k u) (load k w).
Proof.
  intros H. unfold XORWOW_N in H.
  destruct k as [|[|[|[|[|k]]]]]; try lia; reflexivity.
Qed.

Lemma xor_row_vxor (m : list Z) (base : nat) (r : list Z) :
  length r = XORWOW_N -> detail.xor_row m base r = vxor r (slice m base).
Proof.
  intros H. vec5 r H. reflexivity.
Qed.

Lemma bit_set_testbit (w : Z) (j : nat) :
  detail.bit_set w j = Z.testbit w (Z.of_nat j).
Proof.
  unfold detail.bit_set. rewrite Z.shiftl_1_l.
  assert (E : Z.land w (2 ^ Z.of_nat j)
              = if Z.testbit w (Z.of_nat j) then 2 ^ Z.of_nat j else 0).
  { apply Z.bits_inj'. intros n Hn.
    rewrite Z.land_spec, Z.pow2_bits_eqb by lia.
    destruct (Z.eqb_spec (Z.of_nat j) n) as [->|Hne].
    - rewrite andb_true_r. destruct (Z.testbit w n) eqn:E; auto.
      + now rewrite Z.pow2_bits_true by lia.
      + now rewrite Z.bits_0.
    - rewrite andb_false_r. destruct (Z.testbit w (Z.of_nat j)).
      + rewrite Z.pow2_bits_false by lia. reflexivity.
      + now rewrite Z.bits_0. }
  rewrite E. destruct (Z.testbit w (Z.of_nat j)).
  - assert (0 < 2 ^ Z.of_nat j) by (apply Z.pow_pos_nonneg; lia).
    destruct (Z.eqb_spec (2 ^ Z.of_nat j) 0); [lia | reflexivity].
  - reflexivity.
Qed.

(** ** Matrix-vector product as a GF(2) sum of selected rows *)

Lemma fold_left_list_prod {A : Type} (f : nat -> nat -> A -> A)
      (li lj : list nat) :
  forall acc,
    fold_left (fun acc i => fold_left (fun acc j => f i j acc) lj acc) li acc
    = fold_left (fun acc p => f (fst p) (snd p) acc) (list_prod li lj) acc.
Proof.
  induction li as [|i li IH]; intros acc; cbn [list_prod fold_left].
  - reflexivity.
  - rewrite fold_left_app, <- IH. f_equal.
    generalize acc. clear.
    induction lj as [|j lj IHj]; intros acc; cbn [map fold_left]; auto.
Qed.

Lemma xsum_length sel g P :
  forall acc, length acc = XORWOW_N -> length (xsum sel g P acc) = XORWOW_N.
Proof.
  unfold xsum. induction P as [|p P IH]; intros acc H; cbn [fold_left]; auto.
  apply IH. destruct (sel p); auto.
Qed.

Lemma xsum_acc sel g P :
  forall acc, length acc = XORWOW_N ->
    xsum sel g P acc = vxor acc (xsum sel g P vzero).
Proof.
  unfold xsum. induction P as [|p P IH]; intros acc H; cbn [fold_left].
  - now rewrite vxor_zero_r.
  - destruct (sel p).
    + rewrite IH by apply vxor_length.
      rewrite (IH (vxor vzero (g p))) by apply vxor_length.
      rewrite vxor_pad_l, vxor_assoc. reflexivity.
    + now apply IH.
Qed.

Lemma xsum_ext sel1 sel2 g1 g2 P :
  (forall p, In p P -> sel1 p = sel2 p) ->
  (forall p, In p P -> g1 p = g2 p) ->
  forall acc, xsum sel1 g1 P acc = xsum sel2 g2 P acc.
Proof.
  unfold xsum. induction P as [|p P IH]; intros Hs Hg acc; cbn [fold_left]; auto.
  rewrite (Hs p), (Hg p) by (left; reflexivity).
  apply IH; intros q Hq; [apply Hs | apply Hg]; right; exact Hq.
Qed.

Lemma xsum_cons sel g p P acc :
  xsum sel g (p :: P) acc
  = xsum sel g P (if sel p then vxor acc (g p) else acc).
Proof. reflexivity. Qed.

Lemma xsum_xorb s1 s2 g P :
  xsum (fun p => xorb (s1 p) (s2 p)) g P vzero
  = vxor (xsum s1 g P vzero) (xsum s2 g P vzero).
Proof.
  induction P as [|p P IH].
  - symmetry. apply vxor_nilpotent.
  - rewrite !xsum_cons.
    assert (HG : length (vxor vzero (g p)) = XORWOW_N) by apply vxor_length.
    destruct (s1 p), (s2 p); cbn [xorb]; try exact IH.
    + rewrite (xsum_acc s1 g P _ HG), (xsum_acc s2 g P _ HG), IH.
      set (A := xsum s1 g P vzero). set (B := xsum s2 g P vzero).
      set (G := vxor vzero (g p)).
      rewrite (vxor_assoc G A), <- (vxor_assoc A G B), (vxor_comm A G).
      rewrite (vxor_assoc G A B), <- (vxor_assoc G G), vxor_nilpotent.
      symmetry. apply vxor_zero_l, vxor_length.
    + rewrite (xsum_acc _ g P _ HG), (xsum_acc s1 g P _ HG), IH.
      symmetry. apply vxor_assoc.
    + rewrite (xsum_acc _ g P _ HG), (xsum_acc s2 g P _ HG), IH.
      set (A := xsum s1 g P vzero). set (B := xsum s2 g P vzero).
      set (G := vxor vzero (g p)).
      rewrite <- (vxor_assoc A G B), (vxor_comm A G).
      symmetry. apply vxor_assoc.
Qed.

Lemma xsum_linear (F : list Z -> list Z) sel g P :
  linear F -> (forall p, length (g p) = XORWOW_N) ->
  F (xsum sel g P vzero) = xsum sel (fun p => F (g p)) P vzero.
Proof.
  intros [F0 Fx] Hg. induction P as [|p P IH].
  - exact F0.
  - rewrite !xsum_cons.
    destruct (sel p); [|exact IH].
    rewrite (xsum_acc sel g), (xsum_acc sel (fun p => F (g p)))
      by apply vxor_length.
    rewrite Fx, IH, Fx, F0; auto using vxor_length.
    apply xsum_length. reflexivity.
Qed.

(** [mul_mat_vec] is the XOR of the rows of [m] selected by the set bits of
    the five words at [arr + off]. *)
Lemma mul_mat_vec_xsum (m arr : list Z) (off : nat) :
  detail.mul_mat_vec m arr off
  = xsum (fun p => Z.testbit (load (off + fst p) arr) (Z.of_nat (snd p)))
         (fun p => slice m (row_off p)) positions vzero.
Proof.
  unfold detail.mul_mat_vec, positions.
  rewrite (fold_left_list_prod
             (fun i j r => if detail.bit_set (load (off + i) arr) j
                           then detail.xor_row m (i * XORWOW_M * XORWOW_N + j * XORWOW_N) r
                           else r)).
  unfold xsum. fold vzero.
  assert (H : length vzero = XORWOW_N) by reflexivity.
  revert H. generalize vzero.
  induction (list_prod (seq 0 XORWOW_N) (seq 0 XORWOW_M)) as [|p P IH];
    intros acc H; cbn [fold_left]; auto.
  rewrite bit_set_testbit.
  destruct (Z.testbit (load (off + fst p) arr) (Z.of_nat (snd p))).
  - rewrite xor_row_vxor by exact H. apply IH, vxor_length.
  - apply IH, H.
Qed.

Lemma mul_mat_vec_length (m arr : list Z) (off : nat) :
  length (detail.mul_mat_vec m arr off) = XORWOW_N.
Proof.
  rewrite mul_mat_vec_xsum. now apply xsum_length.
Qed.

Lemma in_positions (p : nat * nat) :
  In p positions -> (fst p < XORWOW_N)%nat /\ (snd p < XORWOW_M)%nat.
Proof.
  destruct p as [i j]. unfold positions. rewrite in_prod_iff, !in_seq.
  simpl. lia.
Qed.

(** The product only reads the five words at [arr + off]. *)
Lemma mul_mat_vec_slice (m arr : list Z) (off : nat) :
  detail.mul_mat_vec m arr off = detail.mul_mat_vec m (slice arr off) 0.
Proof.
  rewrite !mul_mat_vec_xsum. apply xsum_ext; auto.
  intros p Hp. apply in_positions in Hp. cbn [Nat.add].
  now rewrite load_slice.
Qed.

Lemma xsum_none sel g P acc :
  (forall p, In p P -> sel p = false) -> xsum sel g P acc = acc.
Proof.
  revert acc. induction P as [|p P IH]; intros acc H; auto.
  rewrite xsum_cons, (H p) by (left; reflexivity).
  apply IH. intros q Hq. apply H. right. exact Hq.
Qed.

Lemma mulv_linear (m : list Z) : linear (mulv m).
Proof.
  unfold mulv. split.
  - rewrite mul_mat_vec_xsum. apply xsum_none.
    intros p Hp. apply in_positions in Hp. cbn [Nat.add].
    destruct Hp as [Hp _]. unfold XORWOW_N in Hp.
    destruct (fst p) as [|[|[|[|[|k]]]]]; try lia; apply Z.bits_0.
  - intros u w _ _. rewrite !mul_mat_vec_xsum, <- xsum_xorb.
    apply xsum_ext; auto.
    intros p Hp. apply in_positions in Hp. cbn [Nat.add].
    rewrite load_vxor by tauto. apply Z.lxor_spec.
Qed.

Lemma mulv_length (m v : list Z) : length (mulv m v) = XORWOW_N.
Proof. apply mul_mat_vec_length. Qed.

(** ** In-place products *)

Lemma fold_store_gen_length (g : nat -> nat) (f : list Z -> nat -> Z)
      (l : list nat) :
  forall a, length (fold_left (fun a i => store (g i) (f a i) a) l a) = length a.
Proof.
  induction l as [|i l IH]; intros a; cbn [fold_left]; auto.
  rewrite IH. apply store_length.
Qed.

Lemma load_fold_store_at (f : nat -> Z) (off n : nat) :
  forall (s : nat) (a : list Z) (j : nat),
    load j (fold_left (fun a i => store (off + i) (f i) a) (seq s n) a)
    = if ((off + s <=? j) && (j <? off + s + n) && (j <? length a))%nat
      then f (j - off)%nat else load j a.
Proof.
  induction n as [|n IH]; intros s a j; cbn [seq fold_left].
  - nat_cases.
  - rewrite IH, store_length, load_store. nat_cases.
    subst. f_equal. lia.
Qed.

Lemma copy_vec_length (arr : list Z) (off : nat) (src : list Z) :
  length (detail.copy_vec arr off src) = length arr.
Proof.
  unfold detail.copy_vec.
  apply (fold_store_gen_length (fun i => (off + i)%nat) (fun _ i => load i src)).
Qed.

Lemma load_copy_vec (arr : list Z) (off : nat) (src : list Z) (j : nat) :
  load j (detail.copy_vec arr off src)
  = if ((off <=? j) && (j <? off + XORWOW_N) && (j <? length arr))%nat
    then load (j - off) src else load j arr.
Proof.
  unfold detail.copy_vec.
  rewrite (load_fold_store_at (fun i => load i src)).
  replace (off + 0)%nat with off by lia. reflexivity.
Qed.

Lemma slice_copy_vec_same (arr : list Z) (off : nat) (src : list Z) :
  (off + XORWOW_N <= length arr)%nat -> length src = XORWOW_N ->
  slice (detail.copy_vec arr off src) off = src.
Proof.
  intros Ha Hs. apply list_eq_load.
  - now rewrite slice_length.
  - intros j Hj. rewrite slice_length in Hj.
    rewrite load_slice, load_copy_vec by exact Hj.
    nat_cases. f_equal. lia.
Qed.

Lemma slice_copy_vec_other (arr : list Z) (off off' : nat) (src : list Z) :
  (off' + XORWOW_N <= off \/ off + XORWOW_N <= off')%nat ->
  slice (detail.copy_vec arr off src) off' = slice arr off'.
Proof.
  intros H. apply list_eq_load.
  - now rewrite !slice_length.
  - intros j Hj. rewrite slice_length in Hj.
    rewrite !load_slice, load_copy_vec by exact Hj.
    nat_cases.
Qed.

(** On the five words of [m_state.x] the in-place product is the product. *)
Lemma mul_mat_vec_inplace_x (m xs : list Z) :
  length xs = XORWOW_N -> detail.mul_mat_vec_inplace m xs 0 = mulv m xs.
Proof.
  intros H. unfold detail.mul_mat_vec_inplace, mulv.
  set (r := detail.mul_mat_vec m xs 0).
  assert (Hr : length r = XORWOW_N) by apply mul_mat_vec_length.
  clearbody r.
  rewrite <- (slice_0 (detail.copy_vec xs 0 r)).
  - apply slice_copy_vec_same; [rewrite H; apply Nat.le_refl | exact Hr].
  - now rewrite copy_vec_length.
Qed.

Lemma iter_inplace_x (m : list Z) (n : N) (xs : list Z) :
  length xs = XORWOW_N ->
  N.iter n (fun xs => detail.mul_mat_vec_inplace m xs 0) xs
  = N.iter n (mulv m) xs
  /\ length (N.iter n (mulv m) xs) = XORWOW_N.
Proof.
  intros H. induction n as [|n IH] using N.peano_ind.
  - split; [reflexivity | exact H].
  - destruct IH as [IH1 IH2]. rewrite !N.iter_succ, IH1. split.
    + now apply mul_mat_vec_inplace_x.
    + apply mulv_length.
Qed.

(** After [mul_mat_mat_inplace(a, b)] row [r] of [a] holds [b] times the
    old row [r]. *)
Lemma mul_mat_mat_rows (b : list Z) (n : nat) :
  forall (s : nat) (a : list Z),
    ((s + n) * XORWOW_N <= length a)%nat ->
    let R := fold_left (fun a i => detail.mul_mat_vec_inplace b a (i * XORWOW_N))
                       (seq s n) a in
    length R = length a /\
    forall r, slice R (r * XORWOW_N)
              = if ((s <=? r) && (r <? s + n))%nat
                then mulv b (slice a (r * XORWOW_N))
                else slice a (r * XORWOW_N).
Proof.
  induction n as [|n IH]; intros s a Ha; cbn [seq fold_left].
  - split; [reflexivity|]. intros r. nat_cases.
  - set (a1 := detail.mul_mat_vec_inplace b a (s * XORWOW_N)).
    assert (Hl1 : length a1 = length a) by apply copy_vec_length.
    destruct (IH (S s) a1) as [HL HR].
    { rewrite Hl1. unfold XORWOW_N in *. lia. }
    split; [congruence|].
    intros r. rewrite HR.
    destruct (Nat.eq_dec r s) as [->|Hne].
    + replace ((S s <=? s) && (s <? S s + n))%nat with false by nat_cases.
      replace ((s <=? s) && (s <? s + S n))%nat with true by nat_cases.
      unfold a1, detail.mul_mat_vec_inplace.
      rewrite slice_copy_vec_same.
      * unfold mulv. apply mul_mat_vec_slice.
      * unfold XORWOW_N in *. lia.
      * apply mul_mat_vec_length.
    + assert (E : slice a1 (r * XORWOW_N) = slice a (r * XORWOW_N)).
      { apply slice_copy_vec_other. unfold XORWOW_N. lia. }
      rewrite E. nat_cases.
Qed.

Lemma mul_mat_mat_length (a b : list Z) :
  length a = XORWOW_SIZE -> length (detail.mul_mat_mat_inplace a b) = XORWOW_SIZE.
Proof.
  intros H. unfold detail.mul_mat_mat_inplace.
  destruct (mul_mat_mat_rows b (XORWOW_N * XORWOW_M) 0 a) as [HL _].
  - rewrite H. apply Nat.le_refl.
  - congruence.
Qed.

(** The product with [mul_mat_mat_inplace(a, b)] is the product with [a]
    followed by the product with [b]. *)
Lemma mulv_mul_mat_mat (a b v : list Z) :
  length a = XORWOW_SIZE ->
  mulv (detail.mul_mat_mat_inplace a b) v = mulv b (mulv a v).
Proof.
  intros H. unfold mulv at 1 3. rewrite !mul_mat_vec_xsum.
  rewrite (xsum_linear (mulv b))
    by (try apply mulv_linear; intros; apply slice_length).
  apply xsum_ext; auto.
  intros p Hp. apply in_positions in Hp. unfold detail.mul_mat_mat_inplace.
  destruct (mul_mat_mat_rows b (XORWOW_N * XORWOW_M) 0 a) as [_ HR].
  { rewrite H. apply Nat.le_refl. }
  replace (row_off p) with ((fst p * XORWOW_M + snd p) * XORWOW_N)%nat
    by (unfold row_off; lia).
  rewrite HR. unfold XORWOW_N, XORWOW_M in *. nat_cases.
Qed.

(** ** The two fallbacks of [jump] *)

(** [copy_mat] into a local array of [XORWOW_SIZE] words. *)
Lemma copy_mat_load (dst src : list Z) (j : nat) :
  length dst = XORWOW_SIZE -> (j < XORWOW_SIZE)%nat ->
  load j (detail.copy_mat dst src) = load j src.
Proof.
  intros Hd Hj. unfold detail.copy_mat.
  rewrite (load_fold_store (fun i => load i src)). nat_cases.
Qed.

Lemma copy_mat_length (dst src : list Z) :
  length (detail.copy_mat dst src) = length dst.
Proof.
  unfold detail.copy_mat.
  apply (fold_store_gen_length (fun i => i) (fun _ i => load i src)).
Qed.

Lemma row_off_bound (p : nat * nat) (k : nat) :
  In p positions -> (k < XORWOW_N)%nat -> (row_off p + k < XORWOW_SIZE)%nat.
Proof.
  intros Hp Hk. apply in_positions in Hp.
  unfold row_off, XORWOW_SIZE, XORWOW_N, XORWOW_M in *. lia.
Qed.

Lemma mulv_copy_mat (dst src v : list Z) :
  length dst = XORWOW_SIZE -> mulv (detail.copy_mat dst src) v = mulv src v.
Proof.
  intros Hd. unfold mulv. rewrite !mul_mat_vec_xsum.
  apply xsum_ext; auto.
  intros p Hp. apply list_eq_load.
  - now rewrite !slice_length.
  - intros j Hj. rewrite slice_length in Hj.
    rewrite !load_slice by exact Hj.
    apply copy_mat_load; [exact Hd | now apply row_off_bound].
Qed.

Lemma land_1_odd (v : Z) : negb (Z.land v 1 =? 0) = Z.odd v.
Proof.
  change 1 with (Z.ones 1). rewrite Z.land_ones by lia.
  rewrite Zodd_mod. change (2 ^ 1) with 2.
  destruct (Z.eqb_spec (v mod 2) 0) as [->|H]; [reflexivity|].
  assert (v mod 2 = 1) as -> by (pose proof (Z.mod_pos_bound v 2); lia).
  reflexivity.
Qed.

Lemma iter_1 {A : Type} (f : A -> A) (y : A) : N.iter 1 f y = f y.
Proof. reflexivity. Qed.

Section Fallback.

Variable last : list Z.

(** The squaring loop started on a matrix [a] (with [b] a copy of it) that
    multiplies like [p] products with [last]: it ends with [v = 0], having
    applied [last] exactly [2 * p * v] times. *)
Lemma jump_squaring_loop_spec (fuel : nat) :
  forall (v : Z) (a xs : list Z) (p : N),
    (1 <= fuel)%nat -> 0 <= v < 2 ^ Z.of_nat fuel ->
    length a = XORWOW_SIZE -> length xs = XORWOW_N ->
    (forall y, mulv a y = N.iter p (mulv last) y) ->
    jump_squaring_loop fuel v a a xs
    = (0, N.iter (2 * p * Z.to_N v) (mulv last) xs).
Proof.
  induction fuel as [|fuel IH]; intros v a xs p Hf Hv Ha Hx Hp; [lia|].
  cbn [jump_squaring_loop].
  set (a1 := detail.mul_mat_mat_inplace a a).
  assert (Ha1 : length a1 = XORWOW_SIZE) by now apply mul_mat_mat_length.
  assert (Hb1 : detail.copy_mat a a1 = a1) by now apply copy_mat_full.
  rewrite Hb1.
  assert (Hp1 : forall y, mulv a1 y = N.iter (2 * p) (mulv last) y).
  { intros y. unfold a1. rewrite mulv_mul_mat_mat, !Hp by exact Ha.
    rewrite <- N.iter_add. f_equal. lia. }
  rewrite land_1_odd, mul_mat_vec_inplace_x by exact Hx.
  rewrite Z.shiftr_div_pow2 by lia. change (2 ^ 1) with 2.
  assert (Hv2 : v = 2 * (v / 2) + (if Z.odd v then 1 else 0)).
  { rewrite (Z.div_mod v 2) at 1 by lia. rewrite Zodd_mod.
    pose proof (Z.mod_pos_bound v 2).
    destruct (Z.eqb_spec (v mod 2) 1); lia. }
  assert (Hh : 0 <= v / 2 < 2 ^ Z.of_nat fuel).
  { rewrite Nat2Z.inj_succ, Z.pow_succ_r in Hv by lia.
    split; [apply Z.div_pos; lia | apply Z.div_lt_upper_bound; lia]. }
  set (xs1 := if Z.odd v then mulv a1 xs else xs).
  assert (Hx1 : length xs1 = XORWOW_N).
  { unfold xs1. destruct (Z.odd v); [apply mulv_length | exact Hx]. }
  assert (Hxs1 : xs1 = N.iter (2 * p * (if Z.odd v then 1 else 0)) (mulv last) xs).
  { unfold xs1. destruct (Z.odd v).
    - rewrite Hp1. f_equal. lia.
    - now rewrite N.mul_0_r. }
  destruct (Z.ltb_spec 0 (v / 2)) as [Hpos|Hz].
  - rewrite (IH (v / 2) a1 xs1 (2 * p)%N); auto.
    + rewrite Hxs1, <- N.iter_add. f_equal. f_equal.
      rewrite Hv2 at 3. destruct (Z.odd v); lia.
    + destruct fuel; [simpl in Hh; lia | lia].
  - assert (Hz0 : v / 2 = 0) by lia.
    rewrite Hz0, Hxs1. f_equal. f_equal.
    rewrite Hv2 at 2. rewrite Hz0. destruct (Z.odd v); lia.
Qed.

Lemma jump_squaring_spec (v : Z) (xs : list Z) :
  0 <= v < 2 ^ 64 -> length xs = XORWOW_N ->
  jump_squaring last v xs = N.iter (Z.to_N (2 * v)) (mulv last) xs.
Proof.
  intros Hv Hx. unfold jump_squaring.
  set (a := detail.copy_mat (repeat 0 XORWOW_SIZE) last).
  assert (Ha : length a = XORWOW_SIZE)
    by (unfold a; rewrite copy_mat_length; apply repeat_length).
  assert (Hm : forall y, mulv a y = N.iter 1 (mulv last) y).
  { intros y. unfold a. rewrite mulv_copy_mat by apply repeat_length.
    symmetry. apply iter_1. }
  clearbody a.
  rewrite (copy_mat_full _ a) by (try apply repeat_length; exact Ha).
  rewrite (jump_squaring_loop_spec 64 v a xs 1 ltac:(lia) Hv Ha Hx Hm).
  cbn [snd]. f_equal. lia.
Qed.

Lemma jump_linear_spec (v : Z) (xs : list Z) :
  0 <= v < 2 ^ 63 -> length xs = XORWOW_N ->
  jump_linear last v xs = N.iter (Z.to_N (2 * v)) (mulv last) xs.
Proof.
  intros Hv Hx. unfold jump_linear, wrap64.
  rewrite Z.shiftl_mul_pow2 by lia. change (2 ^ 1) with 2.
  rewrite Z.mod_small by lia.
  replace (v * 2) with (2 * v) by lia.
  now apply iter_inplace_x.
Qed.

End Fallback.

(** ** Well-formed words, vectors and states *)

Lemma word_wrap32 (z : Z) : word (wrap32 z).
Proof. unfold word, wrap32. apply Z.mod_pos_bound. lia. Qed.

Lemma word_high_bits (w : Z) (n : Z) : word w -> 32 <= n -> Z.testbit w n = false.
Proof.
  intros Hw Hn. rewrite <- (Z.mod_small w (2 ^ 32)) by exact Hw.
  apply Z.mod_pow2_bits_high. lia.
Qed.

Lemma word_of_bits (w : Z) :
  0 <= w -> (forall n, 32 <= n -> Z.testbit w n = false) -> word w.
Proof.
  intros H0 H. split; [exact H0|].
  replace w with (w mod 2 ^ 32); [apply Z.mod_pos_bound; lia|].
  apply Z.bits_inj'. intros n Hn.
  destruct (Z.lt_ge_cases n 32).
  - apply Z.mod_pow2_bits_low. lia.
  - rewrite Z.mod_pow2_bits_high by lia. symmetry. now apply H.
Qed.

Lemma word_lxor (a b : Z) : word a -> word b -> word (Z.lxor a b).
Proof.
  intros Ha Hb. apply word_of_bits.
  - apply Z.lxor_nonneg. unfold word in *. lia.
  - intros n Hn. rewrite Z.lxor_spec, !word_high_bits by assumption.
    reflexivity.
Qed.

Lemma word_shiftr (a n : Z) : word a -> 0 <= n -> word (Z.shiftr a n).
Proof.
  intros Ha Hn. unfold word in *. rewrite Z.shiftr_div_pow2 by exact Hn.
  assert (0 < 2 ^ n) by (apply Z.pow_pos_nonneg; lia).
  split; [apply Z.div_pos; lia|].
  apply Z.le_lt_trans with a; [|lia].
  apply Z.div_le_upper_bound; nia.
Qed.

Lemma wf_vec5 (a b c e f : Z) :
  wf_vec [a; b; c; e; f] <-> word a /\ word b /\ word c /\ word e /\ word f.
Proof.
  unfold wf_vec. split.
  - intros [_ H]. repeat (apply Forall_cons_iff in H; destruct H as [? H]).
    tauto.
  - intros (? & ? & ? & ? & ?). split; [reflexivity|].
    repeat (apply Forall_cons; [assumption|]). apply Forall_nil.
Qed.

(** ** The generator core *)

(** The single step on a five-word register, in closed form. *)
Lemma advance_x_5 (x0 x1 x2 x3 x4 : Z) :
  advance_x [x0; x1; x2; x3; x4]
  = [x1; x2; x3; x4;
     Z.lxor (Z.lxor x4 (wrap32 (Z.shiftl x4 4)))
            (Z.lxor (Z.lxor x0 (Z.shiftr x0 2))
                    (wrap32 (Z.shiftl (Z.lxor x0 (Z.shiftr x0 2)) 1)))].
Proof. reflexivity. Qed.

Lemma advance_x_wf (v : list Z) : wf_vec v -> wf_vec (advance_x v).
Proof.
  intros [Hl Hw]. vec5 v Hl. rewrite advance_x_5.
  assert (H : wf_vec [v0; v1; v2; v3; v4]) by (split; [reflexivity|exact Hw]).
  apply wf_vec5 in H. destruct H as (H0 & H1 & H2 & H3 & H4).
  apply wf_vec5. repeat split; try apply H1; try apply H2; try apply H3;
    try apply H4.
  - apply Z.lxor_nonneg.
    pose proof (word_lxor v4 _ H4 (word_wrap32 (Z.shiftl v4 4))) as A.
    pose proof (word_lxor _ _ (word_lxor _ _ H0 (word_shiftr v0 2 H0 ltac:(lia)))
                          (word_wrap32 (Z.shiftl (Z.lxor v0 (Z.shiftr v0 2)) 1))) as B.
    unfold word in *. lia.
  - apply word_lxor.
    + apply word_lxor; [exact H4 | apply word_wrap32].
    + apply word_lxor; [|apply word_wrap32].
      apply word_lxor; [exact H0 | apply word_shiftr; [exact H0 | lia]].
Qed.

Lemma next_snd (s : xorwow_state) :
  snd (next s)
  = mk_state (advance_x (x s)) (wrap32 (d s + 362437))
             (boxmuller_float_state s) (boxmuller_double_state s)
             (boxmuller_float s) (boxmuller_double s).
Proof. reflexivity. Qed.

Lemma next_fst (s : xorwow_state) :
  fst (next s) = wrap32 (wrap32 (d s + 362437) + load 4 (advance_x (x s))).
Proof. reflexivity. Qed.

Lemma next_n_S (k : nat) (s : xorwow_state) :
  next_n (S k) s = next (snd (next_n k s)).
Proof. reflexivity. Qed.

Lemma wrap32_add_l (a b : Z) : wrap32 (wrap32 a + b) = wrap32 (a + b).
Proof. unfold wrap32. apply Zplus_mod_idemp_l. Qed.

Lemma wrap32_add_r (a b : Z) : wrap32 (a + wrap32 b) = wrap32 (a + b).
Proof. unfold wrap32. apply Zplus_mod_idemp_r. Qed.

Lemma wrap32_mul_l (a b : Z) : wrap32 (wrap32 a * b) = wrap32 (a * b).
Proof. unfold wrap32. apply Zmult_mod_idemp_l. Qed.

Lemma wrap32_word (w : Z) : word w -> wrap32 w = w.
Proof. apply Z.mod_small. Qed.

(** The state after [k] calls of [next]. *)
Lemma next_n_snd (k : nat) (s : xorwow_state) :
  word (d s) ->
  snd (next_n k s)
  = mk_state (N.iter (N.of_nat k) advance_x (x s))
             (wrap32 (d s + Z.of_nat k * 362437))
             (boxmuller_float_state s) (boxmuller_double_state s)
             (boxmuller_float s) (boxmuller_double s).
Proof.
  intros Hd. induction k as [|k IH].
  - change (snd (next_n 0 s)) with s. cbn [N.of_nat N.iter Z.of_nat].
    rewrite Z.mul_0_l, Z.add_0_r, wrap32_word by exact Hd. now destruct s.
  - rewrite next_n_S, next_snd, IH. cbn [x d boxmuller_float_state
      boxmuller_double_state boxmuller_float boxmuller_double].
    rewrite Nnat.Nat2N.inj_succ, N.iter_succ, wrap32_add_l. do 2 f_equal. lia.
Qed.

(** ** The table-driven loop of [jump] *)

Section TableLoop.

(** [JM] and [LOG2] stand for [XORWOW_JUMP_MATRICES] and
    [XORWOW_JUMP_LOG2]. *)
Variable JM : nat.
Variable LOG2 : Z.
Variable jump_matrices : list (list Z).

Lemma land_mask (v l : Z) :
  0 <= l -> Z.land v (Z.shiftl 1 l - 1) = v mod 2 ^ l.
Proof.
  intros Hl. rewrite Z.shiftl_1_l, Z.sub_1_r, <- Z.ones_equiv.
  now apply Z.land_ones.
Qed.

Lemma jump_table_loop_counts (fuel : nat) :
  forall (mi : nat) (v : Z) (xs : list Z),
    snd (jump_table_loop JM LOG2 fuel jump_matrices mi v xs)
    = fold_left
        (fun xs ic => N.iter (snd ic)
                        (fun xs => detail.mul_mat_vec_inplace
                                     (nth (fst ic) jump_matrices []) xs 0) xs)
        (combine (seq mi fuel) (jump_table_counts JM LOG2 fuel mi v))
        xs.
Proof.
  induction fuel as [|fuel IH]; intros mi v xs;
    cbn [jump_table_loop jump_table_counts seq]; [reflexivity|].
  destruct ((0 <? v) && (mi <? JM)%nat); [|reflexivity].
  cbn [combine fold_left fst snd]. apply IH.
Qed.

Lemma fold_combine_counts {A : Type} (f : nat -> A -> A) (n : nat) :
  forall (s : nat) (cs : list N) (y : A),
    fold_left (fun y ic => N.iter (snd ic) (f (fst ic)) y)
              (combine (seq s n) cs) y
    = fold_left (fun y i => N.iter (nth (i - s) cs 0%N) (f i) y) (seq s n) y.
Proof.
  induction n as [|n IH]; intros s cs y; cbn [seq]; [reflexivity|].
  destruct cs as [|c cs].
  - cbn [combine]. generalize (s :: seq (S s) n) as l.
    induction l as [|i l IHl]; cbn [fold_left]; [reflexivity|].
    destruct (i - s)%nat; exact IHl.
  - cbn [combine fold_left fst snd]. rewrite Nat.sub_diag. cbn [nth].
    rewrite IH. generalize (N.iter c (f s) y) as z.
    assert (H : forall i, In i (seq (S s) n) -> (S s <= i)%nat)
      by (intros i Hi; apply in_seq in Hi; lia).
    revert H. generalize (seq (S s) n) as l.
    induction l as [|i l IHl]; intros H z; cbn [fold_left]; [reflexivity|].
    replace (i - s)%nat with (S (i - S s))
      by (specialize (H i (or_introl eq_refl)); lia).
    cbn [nth]. apply IHl. intros j Hj. apply H. right. exact Hj.
Qed.

Section Digits.

Hypothesis log2_nonneg : 0 <= LOG2.

Lemma pow_log2_pos (i : nat) : 0 < 2 ^ (LOG2 * Z.of_nat i).
Proof. apply Z.pow_pos_nonneg; nia. Qed.

Lemma pow_log2_succ (i : nat) :
  2 ^ (LOG2 * Z.of_nat (S i)) = 2 ^ (LOG2 * Z.of_nat i) * 2 ^ LOG2.
Proof.
  rewrite Nat2Z.inj_succ, <- Z.pow_add_r by nia. f_equal. lia.
Qed.

Lemma pow_log2_mono (i k : nat) :
  2 ^ (LOG2 * Z.of_nat i) <= 2 ^ (LOG2 * Z.of_nat (i + k)).
Proof. apply Z.pow_le_mono_r; nia. Qed.

Lemma digit_width_nonneg (i : nat) : 0 <= digit_width JM LOG2 i.
Proof. unfold digit_width. destruct (i <? JM - 1)%nat; lia. Qed.

(** Every position of the table, reached or not, gets as many products
    as its digit says. *)
Lemma jump_table_counts_digit (v0 : Z) (fuel : nat) :
  forall (mi : nat) (k : nat),
    0 <= v0 -> (fuel + mi = JM)%nat -> (k < fuel)%nat ->
    nth k (jump_table_counts JM LOG2 fuel mi
                             (v0 / 2 ^ (LOG2 * Z.of_nat mi))) 0%N
    = Z.to_N (digit JM LOG2 v0 (mi + k)).
Proof.
  induction fuel as [|fuel IH]; intros mi k Hv Hf Hk; [lia|].
  cbn [jump_table_counts].
  pose proof (pow_log2_pos mi) as Hp.
  set (v := v0 / 2 ^ (LOG2 * Z.of_nat mi)).
  assert (Hv' : 0 <= v) by (apply Z.div_pos; lia).
  replace (mi <? JM)%nat with true by (symmetry; apply Nat.ltb_lt; lia).
  rewrite andb_true_r.
  destruct (Z.ltb_spec 0 v) as [Hpos|Hz].
  - fold (digit_width JM LOG2 mi). rewrite land_mask by apply digit_width_nonneg.
    destruct k as [|k]; cbn [nth].
    + rewrite Nat.add_0_r. reflexivity.
    + assert (Hlt : (mi <? JM - 1)%nat = true) by (apply Nat.ltb_lt; lia).
      unfold digit_width at 1. rewrite Hlt.
      rewrite Z.shiftr_div_pow2 by exact log2_nonneg.
      unfold v. rewrite Z.div_div, <- pow_log2_succ
        by (try apply Z.pow_pos_nonneg; lia).
      rewrite IH by lia. f_equal. f_equal. lia.
  - assert (Hz0 : v = 0) by lia.
    assert (E : v0 / 2 ^ (LOG2 * Z.of_nat (mi + k)) = 0).
    { apply Z.div_small. split; [exact Hv|].
      apply Z.lt_le_trans with (2 ^ (LOG2 * Z.of_nat mi));
        [|apply pow_log2_mono].
      unfold v in Hz0. apply Z.div_small_iff in Hz0; lia. }
    unfold digit. rewrite E, Z.mod_0_l.
    + now destruct k.
    + pose proof (digit_width_nonneg (mi + k)).
      apply Z.pow_nonzero; lia.
Qed.

(** The distance left when the loop ends, and the shape of [x]. *)
Lemma jump_table_loop_residual (v0 : Z) (fuel : nat) :
  forall (mi : nat) (xs : list Z),
    0 <= v0 -> (fuel + mi = JM)%nat -> (1 <= fuel)%nat ->
    length xs = XORWOW_N ->
    let r := jump_table_loop JM LOG2 fuel jump_matrices mi
                        (v0 / 2 ^ (LOG2 * Z.of_nat mi)) xs in
    snd (fst r) = v0 / 2 ^ (LOG2 * Z.of_nat (JM - 1) + 1)
    /\ length (snd r) = XORWOW_N.
Proof.
  induction fuel as [|fuel IH]; intros mi xs Hv Hf H1 Hx; [lia|].
  cbn [jump_table_loop].
  pose proof (pow_log2_pos mi) as Hp.
  pose proof (pow_log2_pos (JM - 1)) as Hq.
  set (v := v0 / 2 ^ (LOG2 * Z.of_nat mi)).
  assert (Hv' : 0 <= v) by (apply Z.div_pos; lia).
  replace (mi <? JM)%nat with true by (symmetry; apply Nat.ltb_lt; lia).
  rewrite andb_true_r.
  destruct (Z.ltb_spec 0 v) as [Hpos|Hz].
  - set (l := if (mi <? JM - 1)%nat then LOG2 else 1).
    set (xs1 := N.iter _ _ xs).
    assert (Hx1 : length xs1 = XORWOW_N).
    { unfold xs1. destruct (iter_inplace_x (nth mi jump_matrices [])
                              (Z.to_N (Z.land v (Z.shiftl 1 l - 1))) xs Hx)
        as [E1 E2]. now rewrite E1. }
    destruct fuel as [|fuel].
    + cbn [jump_table_loop fst snd]. split; [|exact Hx1].
      assert (mi = JM - 1)%nat as -> by lia.
      unfold l. replace (JM - 1 <? JM - 1)%nat with false
        by (symmetry; apply Nat.ltb_ge; lia).
      rewrite Z.shiftr_div_pow2 by lia. unfold v.
      rewrite Z.div_div, <- Z.pow_add_r by (try nia; lia). reflexivity.
    + assert (Hlt : (mi <? JM - 1)%nat = true) by (apply Nat.ltb_lt; lia).
      unfold l. rewrite Hlt.
      rewrite Z.shiftr_div_pow2 by exact log2_nonneg.
      unfold v. rewrite Z.div_div, <- pow_log2_succ
        by (try apply Z.pow_pos_nonneg; lia).
      apply IH; auto; lia.
  - cbn [fst snd]. split; [|exact Hx].
    assert (Hz0 : v = 0) by lia. rewrite Hz0. symmetry.
    apply Z.div_small. split; [exact Hv|].
    unfold v in Hz0. apply Z.div_small_iff in Hz0; [|lia].
    apply Z.lt_le_trans with (2 ^ (LOG2 * Z.of_nat mi)); [lia|].
    apply Z.pow_le_mono_r; nia.
Qed.

End Digits.

End TableLoop.

(** ** [jump] against the single step *)

Lemma iter_advance_x_wf (n : N) (xs : list Z) :
  wf_vec xs -> wf_vec (N.iter n advance_x xs).
Proof.
  apply N.iter_invariant. intros y. apply advance_x_wf.
Qed.

Lemma iter_to_N_add {A : Type} (f : A -> A) (a b : Z) (y : A) :
  0 <= a -> 0 <= b ->
  N.iter (Z.to_N a) f (N.iter (Z.to_N b) f y) = N.iter (Z.to_N (a + b)) f y.
Proof.
  intros Ha Hb. rewrite <- N.iter_add. f_equal. lia.
Qed.

Section JumpSteps.

(** [JM] and [LOG2] stand for [XORWOW_JUMP_MATRICES] and
    [XORWOW_JUMP_LOG2]. *)
Variable JM : nat.
Variable LOG2 : Z.
Variable jump_matrices : list (list Z).

(** The number of single steps that one unit of the distance stands for:
    [1] for the table of [discard], [2^67] for the table of
    [discard_subsequence]. *)
Variable unit_steps : Z.

Hypothesis table_nonempty : (1 <= JM)%nat.
Hypothesis log2_nonneg : 0 <= LOG2.
Hypothesis unit_nonneg : 0 <= unit_steps.
Hypothesis table_ok :
  table_powers JM LOG2 jump_matrices unit_steps.

Lemma iter_table_entry (i : nat) (n : Z) (xs : list Z) :
  (i < JM)%nat -> 0 <= n -> wf_vec xs ->
  N.iter (Z.to_N n) (mulv (nth i jump_matrices [])) xs
  = N.iter (Z.to_N (unit_steps * (2 ^ (LOG2 * Z.of_nat i) * n)))
           advance_x xs.
Proof.
  intros Hi Hn Hx.
  pose proof (pow_log2_pos LOG2 log2_nonneg i) as Hp.
  set (P := 2 ^ (LOG2 * Z.of_nat i)) in *.
  replace (Z.to_N (unit_steps * (P * n)))
    with (Z.to_N (unit_steps * P) * Z.to_N n)%N by nia.
  generalize (Z.to_N n) as k. clear n Hn.
  induction k as [|k IH] using N.peano_ind.
  - now rewrite N.mul_0_r.
  - rewrite N.iter_succ, IH, table_ok; auto using iter_advance_x_wf.
    rewrite <- N.iter_add. f_equal. lia.
Qed.

(** The table loop from position [mi] on, followed by [2 * v'] products
    with the last matrix for the distance [v'] it leaves, advances [x] by
    [v] units of position [mi]. *)
Lemma jump_table_loop_steps (fuel : nat) :
  forall (mi : nat) (v : Z) (xs : list Z),
    (fuel + mi = JM)%nat -> (1 <= fuel)%nat -> 0 <= v -> wf_vec xs ->
    let r := jump_table_loop JM LOG2 fuel jump_matrices mi v xs in
    wf_vec (snd r) /\ 0 <= snd (fst r) /\
    N.iter (Z.to_N (unit_steps
                    * (2 ^ (LOG2 * Z.of_nat (JM - 1)) * (2 * snd (fst r)))))
           advance_x (snd r)
    = N.iter (Z.to_N (unit_steps * (2 ^ (LOG2 * Z.of_nat mi) * v)))
             advance_x xs.
Proof.
  induction fuel as [|fuel IH]; intros mi v xs Hf H1 Hv Hx; [lia|].
  cbn [jump_table_loop].
  pose proof (pow_log2_pos LOG2 log2_nonneg mi) as Hp.
  replace (mi <? JM)%nat with true by (symmetry; apply Nat.ltb_lt; lia).
  rewrite andb_true_r.
  destruct (Z.ltb_spec 0 v) as [Hpos|Hz].
  - set (l := if (mi <? JM - 1)%nat then LOG2 else 1).
    assert (Hl : 0 <= l) by (unfold l; destruct (mi <? JM - 1)%nat; lia).
    rewrite land_mask by exact Hl.
    assert (Hpl : 0 < 2 ^ l) by (apply Z.pow_pos_nonneg; lia).
    pose proof (Z.mod_pos_bound v (2 ^ l) Hpl) as Hm.
    destruct (iter_inplace_x (nth mi jump_matrices [])
                             (Z.to_N (v mod 2 ^ l)) xs (proj1 Hx)) as [E _].
    rewrite E, iter_table_entry by (auto; lia).
    set (xs1 := N.iter _ advance_x xs).
    assert (Hx1 : wf_vec xs1) by (apply iter_advance_x_wf, Hx).
    rewrite Z.shiftr_div_pow2 by exact Hl.
    assert (Hd : 0 <= v / 2 ^ l) by (apply Z.div_pos; lia).
    pose proof (Z.div_mod v (2 ^ l) ltac:(lia)) as Hdm.
    destruct fuel as [|fuel].
    + cbn [jump_table_loop fst snd].
      assert (mi = JM - 1)%nat as Emi by lia.
      assert (El : l = 1).
      { unfold l. replace (mi <? JM - 1)%nat with false; [reflexivity|].
        symmetry. apply Nat.ltb_ge. lia. }
      rewrite El in *. change (2 ^ 1) with 2 in *. rewrite <- Emi.
      split; [exact Hx1|]. split; [lia|].
      unfold xs1. rewrite ?El. change (2 ^ 1) with 2.
      rewrite iter_to_N_add by nia. f_equal. f_equal. nia.
    + assert (Hlt : (mi <? JM - 1)%nat = true) by (apply Nat.ltb_lt; lia).
      assert (El : l = LOG2) by (unfold l; now rewrite Hlt).
      rewrite El in *.
      destruct (IH (S mi) (v / 2 ^ LOG2) xs1) as (W & N0 & E1);
        auto; try lia.
      split; [exact W|]. split; [exact N0|].
      rewrite E1. unfold xs1. rewrite ?El.
      pose proof (pow_log2_pos LOG2 log2_nonneg (S mi)) as Hp'.
      rewrite iter_to_N_add by nia. f_equal. f_equal.
      rewrite pow_log2_succ by exact log2_nonneg. nia.
  - cbn [fst snd]. split; [exact Hx|]. split; [exact Hv|].
    assert (v = 0) as -> by lia.
    now rewrite !Z.mul_0_r.
Qed.

(** [jump(v, jump_matrices)] advances [x] by [v] units, on either
    platform. *)
Lemma jump_x_steps (hcc : bool) (v : Z) (xs : list Z) :
  0 <= v < 2 ^ 64 -> wf_vec xs ->
  jump_x JM LOG2 hcc v jump_matrices xs
  = N.iter (Z.to_N (unit_steps * v)) advance_x xs.
Proof.
  intros Hv Hx. unfold jump_x.
  destruct (jump_table_loop_steps JM 0 v xs) as (W & N0 & E);
    auto; try lia.
  destruct (jump_table_loop_residual JM LOG2 jump_matrices log2_nonneg
                                     v JM 0 xs)
    as (R & _); try lia; try apply Hx.
  change (LOG2 * Z.of_nat 0) with (LOG2 * 0) in *.
  rewrite Z.mul_0_r in *. change (2 ^ 0) with 1 in *.
  rewrite Z.div_1_r in R. rewrite Z.mul_1_l in E.
  destruct (jump_table_loop JM LOG2 JM jump_matrices 0 v xs)
    as [[mi' v'] xs'] eqn:EL.
  cbn [fst snd] in *.
  pose proof (pow_log2_pos LOG2 log2_nonneg (JM - 1)) as Hp.
  assert (Hv' : v' < 2 ^ 63).
  { rewrite R. apply Z.div_lt_upper_bound.
    - apply Z.pow_pos_nonneg; nia.
    - rewrite Z.pow_add_r by nia. change (2 ^ 1) with 2. nia. }
  destruct (Z.ltb_spec 0 v') as [Hpos|Hz].
  - rewrite <- E.
    assert (F : jump_fallback hcc (nth (JM - 1) jump_matrices []) v' xs'
                = N.iter (Z.to_N (2 * v'))
                         (mulv (nth (JM - 1) jump_matrices [])) xs').
    { destruct hcc; cbn [jump_fallback].
      - apply jump_linear_spec; [lia | apply W].
      - apply jump_squaring_spec; [lia | apply W]. }
    rewrite F, iter_table_entry by (auto; lia). reflexivity.
  - assert (v' = 0) as -> by lia.
    rewrite <- E. now rewrite !Z.mul_0_r.
Qed.

End JumpSteps.

(** * The engine operations *)

Section EngineFacts.

Variable XORWOW_JUMP_MATRICES : nat.
Variable XORWOW_JUMP_LOG2 : Z.
Variable hcc_device : bool.
Variable xorwow_jump_matrices : list (list Z).
Variable xorwow_sequence_jump_matrices : list (list Z).

Lemma jump_table_loop_0 (fuel : nat) (table : list (list Z)) (mi : nat)
      (xs : list Z) :
  jump_table_loop XORWOW_JUMP_MATRICES XORWOW_JUMP_LOG2 fuel table mi 0 xs
  = (mi, 0, xs).
Proof. destruct fuel; reflexivity. Qed.

(** [distance == 0] is a no-op. *)
Lemma jump_x_0 (hcc : bool) (table : list (list Z)) (xs : list Z) :
  jump_x XORWOW_JUMP_MATRICES XORWOW_JUMP_LOG2 hcc 0 table xs = xs.
Proof. unfold jump_x. now rewrite jump_table_loop_0. Qed.

Lemma jump_0 (table : list (list Z)) (s : xorwow_state) :
  jump XORWOW_JUMP_MATRICES XORWOW_JUMP_LOG2 hcc_device 0 table s = s.
Proof. unfold jump. rewrite jump_x_0. now destruct s. Qed.

Lemma discard_subsequence_0 (s : xorwow_state) :
  discard_subsequence XORWOW_JUMP_MATRICES XORWOW_JUMP_LOG2 hcc_device
                      xorwow_sequence_jump_matrices 0 s = s.
Proof. apply jump_0. Qed.

Lemma discard_0 (s : xorwow_state) :
  word (d s) ->
  discard XORWOW_JUMP_MATRICES XORWOW_JUMP_LOG2 hcc_device
          xorwow_jump_matrices 0 s = s.
Proof.
  intros Hd. unfold discard. rewrite jump_0. unfold set_d.
  change (wrap32 (wrap32 0 * 362437)) with 0.
  rewrite Z.add_0_r, wrap32_word by exact Hd. now destruct s.
Qed.

Lemma init_seeded (seed subsequence offset : Z) (s : xorwow_state) :
  init XORWOW_JUMP_MATRICES XORWOW_JUMP_LOG2 hcc_device
       xorwow_jump_matrices xorwow_sequence_jump_matrices
       seed subsequence offset s
  = discard XORWOW_JUMP_MATRICES XORWOW_JUMP_LOG2 hcc_device
            xorwow_jump_matrices offset
      (discard_subsequence XORWOW_JUMP_MATRICES XORWOW_JUMP_LOG2 hcc_device
                           xorwow_sequence_jump_matrices subsequence
                           (seeded seed s)).
Proof. reflexivity. Qed.

Lemma init_00 (seed : Z) (s : xorwow_state) :
  init XORWOW_JUMP_MATRICES XORWOW_JUMP_LOG2 hcc_device
       xorwow_jump_matrices xorwow_sequence_jump_matrices seed 0 0 s
  = seeded seed s.
Proof.
  rewrite init_seeded, discard_subsequence_0, discard_0; [reflexivity|].
  apply word_wrap32.
Qed.

End EngineFacts.

(** * The matrix of a linear map *)

Lemma load_map_seq (g : nat -> Z) (n j : nat) :
  (j < n)%nat -> load j (map g (seq 0 n)) = g j.
Proof.
  intros H. unfold load.
  rewrite (nth_indep _ 0 (g 0%nat)) by (now rewrite length_map, length_seq).
  rewrite (map_nth g (seq 0 n) 0%nat j), seq_nth by exact H. reflexivity.
Qed.

Lemma slice_matrix_of (F : list Z -> list Z) (p : nat * nat) :
  In p positions -> length (F (unit_vec p)) = XORWOW_N ->
  slice (matrix_of F) (row_off p) = F (unit_vec p).
Proof.
  intros Hp HF. pose proof (row_off_bound p) as Hb.
  apply in_positions in Hp as Hp'. destruct Hp' as [Hi Hj].
  apply list_eq_load.
  - now rewrite slice_length.
  - intros k Hk. rewrite slice_length in Hk.
    rewrite load_slice by exact Hk. unfold matrix_of.
    rewrite load_map_seq by now apply Hb.
    destruct p as [i j]. unfold row_off, XORWOW_N, XORWOW_M in *.
    cbn [fst snd] in *.
    replace ((i * 32 * 5 + j * 5 + k) mod 5)%nat with k
      by (apply Nat.mod_unique with (i * 32 + j)%nat; lia).
    replace ((i * 32 * 5 + j * 5 + k) / 5)%nat with (i * 32 + j)%nat
      by (apply Nat.div_unique with k; lia).
    replace ((i * 32 + j) / 32)%nat with i
      by (apply Nat.div_unique with j; lia).
    replace ((i * 32 + j) mod 32)%nat with j
      by (apply Nat.mod_unique with i; lia).
    reflexivity.
Qed.

(** *** A vector is the XOR of the unit vectors of its set bits *)

Lemma fold_left_ext_in {A B : Type} (f g : A -> B -> A) (l : list B) :
  (forall a b, In b l -> f a b = g a b) ->
  forall a, fold_left f l a = fold_left g l a.
Proof.
  induction l as [|b l IH]; intros H a; cbn [fold_left]; [reflexivity|].
  rewrite (H a b) by (left; reflexivity).
  apply IH. intros a' b' Hb. apply H. right. exact Hb.
Qed.

Lemma testbit_load_xsum sel g P (k : nat) (n : Z) :
  (k < XORWOW_N)%nat ->
  forall acc,
    Z.testbit (load k (xsum sel g P acc)) n
    = fold_left (fun b p => xorb b (sel p && Z.testbit (load k (g p)) n)) P
                (Z.testbit (load k acc) n).
Proof.
  intros Hk. induction P as [|p P IH]; intros acc; [reflexivity|].
  rewrite xsum_cons, IH. cbn [fold_left]. f_equal.
  destruct (sel p); cbn [andb].
  - rewrite load_vxor by exact Hk. apply Z.lxor_spec.
  - now rewrite xorb_false_r.
Qed.

Lemma fold_xorb_seq (c : nat -> bool) (m : nat) (len : nat) :
  forall (s : nat) (b0 : bool),
    fold_left (fun b j => xorb b (c j && (j =? m)%nat)) (seq s len) b0
    = xorb b0 (c m && ((s <=? m) && (m <? s + len))%nat).
Proof.
  induction len as [|len IH]; intros s b0; cbn [seq fold_left].
  - replace ((s <=? m) && (m <? s + 0))%nat with false by nat_cases.
    now rewrite andb_false_r, xorb_false_r.
  - rewrite IH. destruct (Nat.eqb_spec s m) as [->|Hne].
    + replace ((S m <=? m) && (m <? S m + len))%nat with false by nat_cases.
      replace ((m <=? m) && (m <? m + S len))%nat with true by nat_cases.
      now rewrite !andb_true_r, andb_false_r, xorb_false_r.
    + rewrite andb_false_r, xorb_false_r. f_equal. f_equal. nat_cases.
Qed.

Lemma testbit_unit_vec (p : nat * nat) (k : nat) (n : nat) :
  In p positions -> (k < XORWOW_N)%nat ->
  Z.testbit (load k (unit_vec p)) (Z.of_nat n)
  = ((fst p =? k) && (snd p =? n))%nat.
Proof.
  intros Hp Hk. apply in_positions in Hp. destruct Hp as [Hi _].
  unfold unit_vec. rewrite load_store.
  change (length vzero) with XORWOW_N.
  destruct (Nat.eqb_spec k (fst p)) as [->|Hne].
  - rewrite Nat.eqb_refl.
    replace (fst p <? XORWOW_N)%nat with true by nat_cases.
    cbn [andb]. rewrite Z.shiftl_1_l, Z.pow2_bits_eqb by lia.
    destruct (Nat.eqb_spec (snd p) n) as [->|Hn].
    + apply Z.eqb_refl.
    + apply Z.eqb_neq. lia.
  - replace (fst p =? k)%nat with false by nat_cases. cbn [andb].
    unfold XORWOW_N in Hk.
    destruct k as [|[|[|[|[|k]]]]]; try lia; apply Z.bits_0.
Qed.

Lemma xsum_unit_vec (xs : list Z) :
  wf_vec xs ->
  xsum (fun p => Z.testbit (load (fst p) xs) (Z.of_nat (snd p)))
       unit_vec positions vzero
  = xs.
Proof.
  intros [Hl Hw]. apply list_eq_load.
  - rewrite Hl. now apply xsum_length.
  - intros k Hk. rewrite xsum_length in Hk by reflexivity.
    assert (Hwk : word (load k xs)).
    { rewrite Forall_forall in Hw. apply Hw, nth_In. rewrite Hl. exact Hk. }
    apply Z.bits_inj'. intros n Hn.
    rewrite testbit_load_xsum by exact Hk.
    replace (Z.testbit (load k vzero) n) with false.
    2:{ unfold XORWOW_N in Hk.
        destruct k as [|[|[|[|[|k]]]]]; try lia; symmetry; apply Z.bits_0. }
    rewrite <- (Z2Nat.id n Hn). set (m := Z.to_nat n).
    rewrite (fold_left_ext_in _
               (fun b p => xorb b (Z.testbit (load (fst p) xs) (Z.of_nat (snd p))
                                   && ((fst p =? k) && (snd p =? m))%nat))).
    2:{ intros b p Hp. now rewrite testbit_unit_vec. }
    unfold positions.
    rewrite <- (fold_left_list_prod
                  (fun i j b => xorb b (Z.testbit (load i xs) (Z.of_nat j)
                                        && ((i =? k) && (j =? m))%nat))).
    rewrite (fold_left_ext_in _
               (fun b i => xorb b ((Z.testbit (load i xs) (Z.of_nat m)
                                    && (m <? XORWOW_M)%nat) && (i =? k)%nat))).
    2:{ intros b i _.
        rewrite (fold_left_ext_in _
                   (fun b j => xorb b ((Z.testbit (load i xs) (Z.of_nat j)
                                        && (i =? k)%nat) && (j =? m)%nat))).
        2:{ intros b' j _. now rewrite andb_assoc. }
        rewrite (fold_xorb_seq (fun j => Z.testbit (load i xs) (Z.of_nat j)
                                         && (i =? k)%nat)).
        f_equal. cbn [Nat.leb Nat.add].
        destruct (Z.testbit (load i xs) (Z.of_nat m)), (i =? k)%nat,
          (m <? XORWOW_M)%nat; reflexivity. }
    rewrite (fold_xorb_seq (fun i => Z.testbit (load i xs) (Z.of_nat m)
                                     && (m <? XORWOW_M)%nat)).
    replace ((0 <=? k) && (k <? 0 + XORWOW_N))%nat with true by nat_cases.
    rewrite andb_true_r, xorb_false_l.
    destruct (Nat.ltb_spec m XORWOW_M) as [Hm|Hm].
    + apply andb_true_r.
    + rewrite andb_false_r. symmetry. apply word_high_bits; [exact Hwk|].
      unfold XORWOW_M in Hm. lia.
Qed.

(** The product with [matrix_of F] is [F], for a linear [F]. *)
Lemma mulv_matrix_of (F : list Z -> list Z) (xs : list Z) :
  linear F -> (forall p, length (F (unit_vec p)) = XORWOW_N) ->
  wf_vec xs -> mulv (matrix_of F) xs = F xs.
Proof.
  intros HF HL Hx. unfold mulv. rewrite mul_mat_vec_xsum.
  transitivity
    (F (xsum (fun p => Z.testbit (load (fst p) xs) (Z.of_nat (snd p)))
             unit_vec positions vzero));
    [|now rewrite xsum_unit_vec].
  rewrite (xsum_linear F) by (auto; intros p; apply store_length).
  apply xsum_ext; auto.
  intros p Hp. now apply slice_matrix_of.
Qed.

(** *** The single step is linear *)

Lemma advance_x_length (v : list Z) :
  length v = XORWOW_N -> length (advance_x v) = XORWOW_N.
Proof.
  intros H. vec5 v H. reflexivity.
Qed.

Lemma lxor_swap4 (a b c e : Z) :
  Z.lxor (Z.lxor a b) (Z.lxor c e) = Z.lxor (Z.lxor a c) (Z.lxor b e).
Proof.
  rewrite !Z.lxor_assoc. f_equal.
  rewrite <- !Z.lxor_assoc. f_equal. apply Z.lxor_comm.
Qed.

Lemma wrap32_lxor (a b : Z) :
  wrap32 (Z.lxor a b) = Z.lxor (wrap32 a) (wrap32 b).
Proof.
  unfold wrap32. apply Z.bits_inj'. intros n Hn.
  rewrite Z.lxor_spec, !Z.testbit_mod_pow2, Z.lxor_spec by lia.
  destruct (n <? 32); reflexivity.
Qed.

Lemma mix_lxor (a b c e : Z) :
  mix (Z.lxor a b) (Z.lxor c e) = Z.lxor (mix a c) (mix b e).
Proof.
  unfold mix.
  rewrite !Z.shiftr_lxor, !Z.shiftl_lxor, !wrap32_lxor.
  rewrite (lxor_swap4 c e), (lxor_swap4 a b).
  rewrite (lxor_swap4 (wrap32 (Z.shiftl a 1))).
  rewrite (lxor_swap4 (Z.lxor a (Z.shiftr a 2))).
  apply lxor_swap4.
Qed.

Lemma advance_x_linear : linear advance_x.
Proof.
  split; [reflexivity|].
  intros u w Hu Hw. vec5 u Hu. vec5 w Hw.
  change (vxor [u0; u1; u2; u3; u4] [w0; w1; w2; w3; w4])
    with [Z.lxor u0 w0; Z.lxor u1 w1; Z.lxor u2 w2; Z.lxor u3 w3; Z.lxor u4 w4].
  rewrite !advance_x_5.
  change ([Z.lxor u1 w1; Z.lxor u2 w2; Z.lxor u3 w3; Z.lxor u4 w4;
           mix (Z.lxor u0 w0) (Z.lxor u4 w4)]
          = [Z.lxor u1 w1; Z.lxor u2 w2; Z.lxor u3 w3; Z.lxor u4 w4;
             Z.lxor (mix u0 u4) (mix w0 w4)]).
  now rewrite mix_lxor.
Qed.

Lemma iter_advance_x_length (n : N) (v : list Z) :
  length v = XORWOW_N -> length (N.iter n advance_x v) = XORWOW_N.
Proof.
  apply (N.iter_invariant n _ advance_x (fun y => length y = XORWOW_N)).
  apply advance_x_length.
Qed.

Lemma iter_advance_x_linear (n : N) : linear (N.iter n advance_x).
Proof.
  induction n as [|n [I0 IX]] using N.peano_ind.
  - split; [reflexivity|]. intros u w _ _. reflexivity.
  - destruct advance_x_linear as [A0 AX]. split.
    + now rewrite N.iter_succ, I0.
    + intros u w Hu Hw. rewrite !N.iter_succ, IX, AX;
        auto using iter_advance_x_length.
Qed.

(** [power_table] holds the powers of the single step. *)
Lemma power_table_ok (depth : nat) (log2 unit_steps : Z) :
  table_powers depth log2 (power_table depth log2 unit_steps) unit_steps.
Proof.
  intros i xs Hi Hx. unfold power_table.
  set (g := fun i => matrix_of (N.iter (Z.to_N (unit_steps * 2 ^ (log2 * Z.of_nat i)))
                                       advance_x)).
  assert (E : nth i (map g (seq 0 depth)) [] = g i).
  { rewrite (nth_indep _ [] (g 0%nat)) by (now rewrite length_map, length_seq).
    rewrite (map_nth g (seq 0 depth) 0%nat i), seq_nth by exact Hi.
    reflexivity. }
  rewrite E. unfold g. apply mulv_matrix_of.
  - apply iter_advance_x_linear.
  - intros p. apply iter_advance_x_length, store_length.
  - exact Hx.
Qed.

(** * Shared facts behind the verified claims *)

Lemma seeded_wf (seed : Z) (s : xorwow_state) : wf_state (seeded seed s).
Proof.
  unfold wf_state, seeded. cbn [x d]. split; [|apply word_wrap32].
  apply wf_vec5.
  assert (K1 : word 362436069) by (unfold word; lia).
  assert (K3 : word 88675123) by (unfold word; lia).
  auto 10 using word_wrap32, word_lxor.
Qed.

Lemma next_n_boxmuller (k : nat) (s : xorwow_state) :
  boxmuller_float_state (snd (next_n k s)) = boxmuller_float_state s
  /\ boxmuller_double_state (snd (next_n k s)) = boxmuller_double_state s
  /\ boxmuller_float (snd (next_n k s)) = boxmuller_float s
  /\ boxmuller_double (snd (next_n k s)) = boxmuller_double s.
Proof.
  induction k as [|k IH].
  - repeat split.
  - rewrite next_n_S, next_snd. exact IH.
Qed.

Lemma wrap32_weyl (d0 n : Z) :
  wrap32 (d0 + wrap32 (wrap32 n * 362437)) = (d0 + n * 362437) mod 2 ^ 32.
Proof.
  rewrite wrap32_add_r. unfold wrap32.
  rewrite (Z.add_mod d0 (n mod 2 ^ 32 * 362437)), Zmult_mod_idemp_l by lia.
  rewrite <- Z.add_mod by lia. reflexivity.
Qed.

(** [discard(n)] leaves the state that [n] calls of [next] leave. *)
Lemma discard_next_n
      (XORWOW_JUMP_MATRICES : nat) (XORWOW_JUMP_LOG2 : Z) (hcc_device : bool)
      (xorwow_jump_matrices : list (list Z)) (n : Z) (s : xorwow_state) :
  (1 <= XORWOW_JUMP_MATRICES)%nat -> 0 <= XORWOW_JUMP_LOG2 ->
  table_powers XORWOW_JUMP_MATRICES XORWOW_JUMP_LOG2 xorwow_jump_matrices 1 ->
  0 <= n < 2 ^ 64 -> wf_state s ->
  discard XORWOW_JUMP_MATRICES XORWOW_JUMP_LOG2 hcc_device
          xorwow_jump_matrices n s
  = snd (next_n (Z.to_nat n) s).
Proof.
  intros HJ HL HT Hn [Hx Hd].
  rewrite next_n_snd by exact Hd.
  unfold discard, jump, set_d, set_x.
  cbn [x d boxmuller_float_state boxmuller_double_state boxmuller_float
         boxmuller_double].
  rewrite (jump_x_steps XORWOW_JUMP_MATRICES XORWOW_JUMP_LOG2
                        xorwow_jump_matrices 1) by (auto; lia).
  rewrite wrap32_weyl. f_equal.
  - f_equal. lia.
  - unfold wrap32. f_equal. lia.
Qed.

(** [discard_subsequence(n)] advances [x] by [n * 2^67] single steps, when
    entry [i] of its table is the matrix of [2^67 * 2^(LOG2 * i)] steps. *)
Lemma discard_subsequence_steps
      (XORWOW_JUMP_MATRICES : nat) (XORWOW_JUMP_LOG2 : Z) (hcc_device : bool)
      (xorwow_sequence_jump_matrices : list (list Z))
      (n : Z) (s : xorwow_state) :
  (1 <= XORWOW_JUMP_MATRICES)%nat -> 0 <= XORWOW_JUMP_LOG2 ->
  table_powers XORWOW_JUMP_MATRICES XORWOW_JUMP_LOG2
               xorwow_sequence_jump_matrices (2 ^ 67) ->
  0 <= n < 2 ^ 64 -> wf_state s ->
  x (discard_subsequence XORWOW_JUMP_MATRICES XORWOW_JUMP_LOG2 hcc_device
                         xorwow_sequence_jump_matrices n s)
  = N.iter (Z.to_N (2 ^ 67 * n)) advance_x (x s).
Proof.
  intros HJ HL HT Hn [Hx _].
  unfold discard_subsequence, jump, set_x. cbn [x].
  apply (jump_x_steps XORWOW_JUMP_MATRICES XORWOW_JUMP_LOG2
                      xorwow_sequence_jump_matrices (2 ^ 67)); auto; lia.
Qed.

(** The two fallbacks agree on every distance the table loop can leave. *)
Lemma jump_fallbacks_agree (last : list Z) (v : Z) (xs : list Z) :
  0 <= v < 2 ^ 63 -> length xs = XORWOW_N ->
  jump_linear last v xs = jump_squaring last v xs.
Proof.
  intros Hv Hx.
  rewrite jump_linear_spec, jump_squaring_spec by (auto; lia). reflexivity.
Qed.

Lemma jump_residual_bound
      (XORWOW_JUMP_MATRICES : nat) (XORWOW_JUMP_LOG2 : Z)
      (jump_matrices : list (list Z)) (v0 : Z) (xs0 : list Z) :
  (1 <= XORWOW_JUMP_MATRICES)%nat -> 0 <= XORWOW_JUMP_LOG2 ->
  0 <= v0 < 2 ^ 64 -> length xs0 = XORWOW_N ->
  let r := jump_table_loop XORWOW_JUMP_MATRICES XORWOW_JUMP_LOG2
                           XORWOW_JUMP_MATRICES jump_matrices 0 v0 xs0 in
  0 <= snd (fst r) < 2 ^ 63 /\ length (snd r) = XORWOW_N.
Proof.
  intros HJ HL Hv Hx.
  destruct (jump_table_loop_residual XORWOW_JUMP_MATRICES XORWOW_JUMP_LOG2
              jump_matrices HL v0 XORWOW_JUMP_MATRICES 0 xs0)
    as (R & L); try lia; try exact Hx.
  change (XORWOW_JUMP_LOG2 * Z.of_nat 0) with (XORWOW_JUMP_LOG2 * 0) in *.
  rewrite Z.mul_0_r in *. change (2 ^ 0) with 1 in *.
  rewrite Z.div_1_r in *.
  cbv zeta. split; [|exact L]. rewrite R.
  set (e := XORWOW_JUMP_LOG2 * Z.of_nat (XORWOW_JUMP_MATRICES - 1)).
  assert (He : 0 <= e) by (unfold e; nia).
  assert (Hp : 0 < 2 ^ e) by (apply Z.pow_pos_nonneg; lia).
  rewrite Z.pow_add_r by lia. change (2 ^ 1) with 2.
  split.
  - apply Z.div_pos; lia.
  - apply Z.div_lt_upper_bound; nia.
Qed.

(** * The model at work on a table of depth 2 *)

(** Distance 5 = 1 + 1 * 4: one product with each of the two matrices. *)
Example jump_5_table :
  jump_x 2 2 false 5 (power_table 2 2 1) x_seed0 = N.iter 5 advance_x x_seed0.
Proof. vm_compute. reflexivity. Qed.

(** Distance 8 is past the table: one squaring of the last matrix. *)
Example jump_8_squaring :
  jump_x 2 2 false 8 (power_table 2 2 1) x_seed0 = N.iter 8 advance_x x_seed0.
Proof. vm_compute. reflexivity. Qed.

(** Distance 8 with the linear fallback: two products with the last
    matrix. *)
Example jump_8_linear :
  jump_x 2 2 true 8 (power_table 2 2 1) x_seed0 = N.iter 8 advance_x x_seed0.
Proof. vm_compute. reflexivity. Qed.

(** The first output for seed 0, subsequence 0, offset 0. *)
Example first_output_seed0 :
  fst (next (seeded 0 (mk_state [] 0 0 0 0 0))) = 3179217846.
Proof. vm_compute. reflexivity. Qed.

(** * The verified claims *)

(** C1.  Step/skip equivalence: for every 64-bit distance [n] and every
    state [s], [discard(n)] (skipAhead) followed by one [next] gives the
    same state and the same output word as [n + 1] calls of [next].  The
    step table is external data: it is assumed to hold, at entry [i], the
    transition matrix of [2^(XORWOW_JUMP_LOG2 * i)] single steps.  The
    result holds for the squaring and for the linear fallback alike. *)
Theorem skip_then_next_equiv
        (XORWOW_JUMP_MATRICES : nat) (XORWOW_JUMP_LOG2 : Z) (hcc_device : bool)
        (xorwow_jump_matrices : list (list Z)) (n : Z) (s : xorwow_state) :
  (1 <= XORWOW_JUMP_MATRICES)%nat -> 0 <= XORWOW_JUMP_LOG2 ->
  table_powers XORWOW_JUMP_MATRICES XORWOW_JUMP_LOG2 xorwow_jump_matrices 1 ->
  0 <= n < 2 ^ 64 -> wf_state s ->
  next (discard XORWOW_JUMP_MATRICES XORWOW_JUMP_LOG2 hcc_device
                xorwow_jump_matrices n s)
  = next_n (S (Z.to_nat n)) s.
Proof.
  intros HJ HL HT Hn Hs.
  rewrite next_n_S, <- (discard_next_n XORWOW_JUMP_MATRICES XORWOW_JUMP_LOG2
                          hcc_device xorwow_jump_matrices) by assumption.
  reflexivity.
Qed.

(** C1 at depth 32, granularity 2, the table of powers, distance 5 and the
    state seeded with 0. *)
Lemma skip_then_next_equiv_witness :
  next (discard 32 2 false (power_table 32 2 1) 5
                (seeded 0 (mk_state [] 0 0 0 0 0)))
  = next_n 6 (seeded 0 (mk_state [] 0 0 0 0 0)).
Proof.
  apply (skip_then_next_equiv 32 2 false (power_table 32 2 1) 5
                              (seeded 0 (mk_state [] 0 0 0 0 0))).
  - lia.
  - lia.
  - apply power_table_ok.
  - lia.
  - apply seeded_wf.
Defined.

(** C2.  One call of [next] on a state with words [x0 .. x4] and Weyl value
    [d0] computes [t = x0 xor (x0 >> 2)], moves [x1 .. x4] down one slot,
    sets the fifth word to [(x4 xor (x4 << 4)) xor (t xor (t << 1))] with
    32-bit shifts, adds 362437 to [d] modulo 2^32 and returns the new [d]
    plus the new fifth word modulo 2^32. *)
Theorem next_advance (x0 x1 x2 x3 x4 d0 fs ds bf bd : Z) :
  let t := Z.lxor x0 (Z.shiftr x0 2) in
  let x4' := Z.lxor (Z.lxor x4 ((x4 * 2 ^ 4) mod 2 ^ 32))
                    (Z.lxor t ((t * 2 ^ 1) mod 2 ^ 32)) in
  let d' := (d0 + 362437) mod 2 ^ 32 in
  next (mk_state [x0; x1; x2; x3; x4] d0 fs ds bf bd)
  = ((d' + x4') mod 2 ^ 32, mk_state [x1; x2; x3; x4; x4'] d' fs ds bf bd).
Proof.
  cbv zeta.
  rewrite (surjective_pairing (next _)), next_fst, next_snd.
  cbn [x d boxmuller_float_state boxmuller_double_state boxmuller_float
         boxmuller_double].
  rewrite advance_x_5. unfold wrap32, load. cbn [nth].
  rewrite !Z.shiftl_mul_pow2 by lia. reflexivity.
Qed.

(** C3.  Subsequence/offset composition: [init(seed, sub, off)] is
    [init(seed, 0, 0)] followed by [discard_subsequence(sub)] and
    [discard(off)]; with [sub = 0] and [off = 0] the two discards change
    nothing. *)
Theorem init_composition
        (XORWOW_JUMP_MATRICES : nat) (XORWOW_JUMP_LOG2 : Z) (hcc_device : bool)
        (xorwow_jump_matrices xorwow_sequence_jump_matrices : list (list Z))
        (seed sub off : Z) (mem : xorwow_state) :
  let init0 := init XORWOW_JUMP_MATRICES XORWOW_JUMP_LOG2 hcc_device
                    xorwow_jump_matrices xorwow_sequence_jump_matrices
                    seed 0 0 mem in
  init XORWOW_JUMP_MATRICES XORWOW_JUMP_LOG2 hcc_device
       xorwow_jump_matrices xorwow_sequence_jump_matrices seed sub off mem
  = discard XORWOW_JUMP_MATRICES XORWOW_JUMP_LOG2 hcc_device
            xorwow_jump_matrices off
      (discard_subsequence XORWOW_JUMP_MATRICES XORWOW_JUMP_LOG2 hcc_device
                           xorwow_sequence_jump_matrices sub init0)
  /\ discard XORWOW_JUMP_MATRICES XORWOW_JUMP_LOG2 hcc_device
             xorwow_jump_matrices 0
       (discard_subsequence XORWOW_JUMP_MATRICES XORWOW_JUMP_LOG2 hcc_device
                            xorwow_sequence_jump_matrices 0 init0)
     = init0.
Proof.
  cbv zeta. rewrite init_00. split.
  - apply init_seeded.
  - rewrite discard_subsequence_0. apply discard_0, seeded_wf.
Qed.

(** C4.  Weyl component linearity: after [discard(n)] the field [d] is
    [(d_before + n * 362437) mod 2^32], whatever happens to [x]; the
    truncation of [n] to 32 bits before the multiplication does not change
    the product modulo 2^32. *)
Theorem discard_weyl_linear
        (XORWOW_JUMP_MATRICES : nat) (XORWOW_JUMP_LOG2 : Z) (hcc_device : bool)
        (xorwow_jump_matrices : list (list Z)) (n : Z) (s : xorwow_state) :
  d (discard XORWOW_JUMP_MATRICES XORWOW_JUMP_LOG2 hcc_device
             xorwow_jump_matrices n s)
  = (d s + n * 362437) mod 2 ^ 32
  /\ wrap32 (wrap32 n * 362437) = (n * 362437) mod 2 ^ 32.
Proof.
  split.
  - unfold discard, jump, set_d, set_x. cbn [d]. apply wrap32_weyl.
  - apply wrap32_mul_l.
Qed.

(** C5.  Subsequence Weyl invariance: [discard_subsequence(n)] leaves [d]
    unchanged. *)
Theorem discard_subsequence_weyl_invariant
        (XORWOW_JUMP_MATRICES : nat) (XORWOW_JUMP_LOG2 : Z) (hcc_device : bool)
        (xorwow_sequence_jump_matrices : list (list Z))
        (n : Z) (s : xorwow_state) :
  d (discard_subsequence XORWOW_JUMP_MATRICES XORWOW_JUMP_LOG2 hcc_device
                         xorwow_sequence_jump_matrices n s)
  = d s.
Proof. reflexivity. Qed.

(** C6 as stated fails.  With 32 matrices of granularity 2 and the distance
    [2^63], digit 31 in base 4 is 2, but the loop multiplies by the last
    matrix [0] times: the last position consumes a single bit, and bit 63
    is left to the fallback. *)
Lemma uniform_digits_fails : ~ uniform_digits 32 2 (2 ^ 63).
Proof.
  intros H. specialize (H 31%nat ltac:(lia)).
  vm_compute in H. discriminate H.
Qed.

(** C6 (amended).  The table loop splits the distance into digits: every
    position [i] before the last consumes a digit of [XORWOW_JUMP_LOG2]
    bits, the last position [XORWOW_JUMP_MATRICES - 1] a single bit.  Each
    position gets as many products with [jump_matrices[i]] as its digit
    says (none once the remaining distance is zero), in increasing order of
    [i], and the distance left over is [v] shifted right by all the bits
    consumed. *)
Theorem jump_table_digits
        (XORWOW_JUMP_MATRICES : nat) (XORWOW_JUMP_LOG2 : Z)
        (jump_matrices : list (list Z)) (v : Z) (xs : list Z) :
  (1 <= XORWOW_JUMP_MATRICES)%nat -> 0 <= XORWOW_JUMP_LOG2 ->
  0 <= v -> length xs = XORWOW_N ->
  let r := jump_table_loop XORWOW_JUMP_MATRICES XORWOW_JUMP_LOG2
                           XORWOW_JUMP_MATRICES jump_matrices 0 v xs in
  (forall i : nat,
      (i < XORWOW_JUMP_MATRICES)%nat ->
      nth i (jump_table_counts XORWOW_JUMP_MATRICES XORWOW_JUMP_LOG2
                               XORWOW_JUMP_MATRICES 0 v) 0%N
      = Z.to_N (digit XORWOW_JUMP_MATRICES XORWOW_JUMP_LOG2 v i))
  /\ snd r
     = fold_left
         (fun xs i =>
            N.iter (Z.to_N (digit XORWOW_JUMP_MATRICES XORWOW_JUMP_LOG2 v i))
                   (fun xs => detail.mul_mat_vec_inplace (nth i jump_matrices []) xs 0)
                   xs)
         (seq 0 XORWOW_JUMP_MATRICES) xs
  /\ snd (fst r)
     = v / 2 ^ (XORWOW_JUMP_LOG2 * Z.of_nat (XORWOW_JUMP_MATRICES - 1) + 1).
Proof.
  intros HJ HL Hv Hx. cbv zeta.
  assert (HC : forall i : nat,
             (i < XORWOW_JUMP_MATRICES)%nat ->
             nth i (jump_table_counts XORWOW_JUMP_MATRICES XORWOW_JUMP_LOG2
                                      XORWOW_JUMP_MATRICES 0 v) 0%N
             = Z.to_N (digit XORWOW_JUMP_MATRICES XORWOW_JUMP_LOG2 v i)).
  { intros i Hi.
    pose proof (jump_table_counts_digit XORWOW_JUMP_MATRICES XORWOW_JUMP_LOG2
                  HL v XORWOW_JUMP_MATRICES 0 i Hv ltac:(lia) Hi) as E.
    change (XORWOW_JUMP_LOG2 * Z.of_nat 0) with (XORWOW_JUMP_LOG2 * 0) in E.
    rewrite Z.mul_0_r in E. change (2 ^ 0) with 1 in E.
    rewrite Z.div_1_r in E. exact E. }
  split; [exact HC|]. split.
  - rewrite jump_table_loop_counts.
    rewrite (fold_combine_counts
               (fun i xs => detail.mul_mat_vec_inplace (nth i jump_matrices []) xs 0)).
    apply fold_left_ext_in. intros a i Hi. apply in_seq in Hi.
    rewrite Nat.sub_0_r, HC by lia. reflexivity.
  - destruct (jump_table_loop_residual XORWOW_JUMP_MATRICES XORWOW_JUMP_LOG2
                jump_matrices HL v XORWOW_JUMP_MATRICES 0 xs)
      as (R & _); try lia; try exact Hx.
    change (XORWOW_JUMP_LOG2 * Z.of_nat 0) with (XORWOW_JUMP_LOG2 * 0) in R.
    rewrite Z.mul_0_r in R. change (2 ^ 0) with 1 in R.
    rewrite Z.div_1_r in R. exact R.
Qed.

(** C6 (amended) at depth 32, granularity 2 and the distance [2^63]. *)
Lemma jump_table_digits_witness :
  (forall i : nat,
      (i < 32)%nat ->
      nth i (jump_table_counts 32 2 32 0 (2 ^ 63)) 0%N
      = Z.to_N (digit 32 2 (2 ^ 63) i))
  /\ snd (jump_table_loop 32 2 32 (power_table 32 2 1) 0 (2 ^ 63) [1; 2; 3; 4; 5])
     = fold_left
         (fun xs i =>
            N.iter (Z.to_N (digit 32 2 (2 ^ 63) i))
                   (fun xs => detail.mul_mat_vec_inplace
                                (nth i (power_table 32 2 1) []) xs 0)
                   xs)
         (seq 0 32) [1; 2; 3; 4; 5]
  /\ snd (fst (jump_table_loop 32 2 32 (power_table 32 2 1) 0 (2 ^ 63)
                               [1; 2; 3; 4; 5]))
     = 2 ^ 63 / 2 ^ (2 * Z.of_nat (32 - 1) + 1).
Proof.
  apply (jump_table_digits 32 2 (power_table 32 2 1) (2 ^ 63) [1; 2; 3; 4; 5]).
  - lia.
  - lia.
  - lia.
  - reflexivity.
Defined.

(** C7.  For every distance [v > 0] that the table loop leaves and every
    matrix [last], the linear fallback of the HCC device build ([2 * v]
    products with [last]) and the default exponentiation by squaring end
    with the same vector [x]. *)
Theorem fallback_strategies_agree
        (XORWOW_JUMP_MATRICES : nat) (XORWOW_JUMP_LOG2 : Z)
        (jump_matrices : list (list Z)) (last : list Z)
        (v0 : Z) (xs0 : list Z) :
  (1 <= XORWOW_JUMP_MATRICES)%nat -> 0 <= XORWOW_JUMP_LOG2 ->
  0 <= v0 < 2 ^ 64 -> length xs0 = XORWOW_N ->
  let r := jump_table_loop XORWOW_JUMP_MATRICES XORWOW_JUMP_LOG2
                           XORWOW_JUMP_MATRICES jump_matrices 0 v0 xs0 in
  0 < snd (fst r) ->
  jump_linear last (snd (fst r)) (snd r)
  = jump_squaring last (snd (fst r)) (snd r).
Proof.
  intros HJ HL Hv Hx r Hr.
  destruct (jump_residual_bound XORWOW_JUMP_MATRICES XORWOW_JUMP_LOG2
              jump_matrices v0 xs0 HJ HL Hv Hx) as [Hb Hl].
  fold r in Hb, Hl.
  apply jump_fallbacks_agree; [lia | exact Hl].
Qed.

(** C7 at depth 32, granularity 2 and the distance [2^63], which leaves
    the distance 1 to the fallback, with the one-step matrix as [last]. *)
Lemma fallback_strategies_agree_witness :
  0 < snd (fst (jump_table_loop 32 2 32 (power_table 32 2 1) 0 (2 ^ 63)
                                [1; 2; 3; 4; 5]))
  /\ jump_linear (matrix_of advance_x)
        (snd (fst (jump_table_loop 32 2 32 (power_table 32 2 1) 0 (2 ^ 63)
                                   [1; 2; 3; 4; 5])))
        (snd (jump_table_loop 32 2 32 (power_table 32 2 1) 0 (2 ^ 63)
                              [1; 2; 3; 4; 5]))
     = jump_squaring (matrix_of advance_x)
         (snd (fst (jump_table_loop 32 2 32 (power_table 32 2 1) 0 (2 ^ 63)
                                    [1; 2; 3; 4; 5])))
         (snd (jump_table_loop 32 2 32 (power_table 32 2 1) 0 (2 ^ 63)
                               [1; 2; 3; 4; 5])).
Proof.
  assert (H : 0 < snd (fst (jump_table_loop 32 2 32 (power_table 32 2 1) 0
                                            (2 ^ 63) [1; 2; 3; 4; 5])))
    by reflexivity.
  split; [exact H|].
  apply (fallback_strategies_agree 32 2 (power_table 32 2 1)
           (matrix_of advance_x) (2 ^ 63) [1; 2; 3; 4; 5]).
  - lia.
  - lia.
  - lia.
  - reflexivity.
  - exact H.
Defined.

(** C8.  Non-degeneracy: for the seeds 0, 1 and 0xFFFFFFFFFFFFFFFF, with
    subsequence 0 and offset 0, the vector [x] that the constructor builds
    is not the all-zero vector. *)
Theorem seeded_x_nonzero
        (XORWOW_JUMP_MATRICES : nat) (XORWOW_JUMP_LOG2 : Z) (hcc_device : bool)
        (xorwow_jump_matrices xorwow_sequence_jump_matrices : list (list Z))
        (mem : xorwow_state) :
  x (init XORWOW_JUMP_MATRICES XORWOW_JUMP_LOG2 hcc_device
          xorwow_jump_matrices xorwow_sequence_jump_matrices 0 0 0 mem)
  <> repeat 0 XORWOW_N
  /\ x (init XORWOW_JUMP_MATRICES XORWOW_JUMP_LOG2 hcc_device
             xorwow_jump_matrices xorwow_sequence_jump_matrices 1 0 0 mem)
     <> repeat 0 XORWOW_N
  /\ x (init XORWOW_JUMP_MATRICES XORWOW_JUMP_LOG2 hcc_device
             xorwow_jump_matrices xorwow_sequence_jump_matrices
             0xFFFFFFFFFFFFFFFF 0 0 mem)
     <> repeat 0 XORWOW_N.
Proof.
  rewrite !init_00. unfold seeded. cbn [x].
  repeat split; vm_compute; discriminate.
Qed.

(** C9.  [discard] and [discard_subsequence] leave the four cached-Gaussian
    fields unchanged, for every offset and every subsequence count:
    [discard_subsequence] writes [x] only, [discard] writes [x] and [d]. *)
Theorem discard_preserves_boxmuller
        (XORWOW_JUMP_MATRICES : nat) (XORWOW_JUMP_LOG2 : Z) (hcc_device : bool)
        (xorwow_jump_matrices xorwow_sequence_jump_matrices : list (list Z))
        (n : Z) (s : xorwow_state) :
  let s1 := discard XORWOW_JUMP_MATRICES XORWOW_JUMP_LOG2 hcc_device
                    xorwow_jump_matrices n s in
  let s2 := discard_subsequence XORWOW_JUMP_MATRICES XORWOW_JUMP_LOG2
                                hcc_device xorwow_sequence_jump_matrices n s in
  (boxmuller_float_state s1 = boxmuller_float_state s
   /\ boxmuller_double_state s1 = boxmuller_double_state s
   /\ boxmuller_float s1 = boxmuller_float s
   /\ boxmuller_double s1 = boxmuller_double s)
  /\ (boxmuller_float_state s2 = boxmuller_float_state s
      /\ boxmuller_double_state s2 = boxmuller_double_state s
      /\ boxmuller_float s2 = boxmuller_float s
      /\ boxmuller_double s2 = boxmuller_double s)
  /\ s1 = set_d (set_x s (x s1)) (d s1)
  /\ s2 = set_x s (x s2).
Proof.
  cbv zeta. repeat split.
Qed.

(** C10.  [next] writes only [x] and [d]: the four Box-Muller cache fields
    are unchanged by one call, and so by any number [k] of calls. *)
Theorem next_preserves_boxmuller (s : xorwow_state) (k : nat) :
  (boxmuller_float_state (snd (next s)) = boxmuller_float_state s
   /\ boxmuller_double_state (snd (next s)) = boxmuller_double_state s
   /\ boxmuller_float (snd (next s)) = boxmuller_float s
   /\ boxmuller_double (snd (next s)) = boxmuller_double s)
  /\ (boxmuller_float_state (snd (next_n k s)) = boxmuller_float_state s
      /\ boxmuller_double_state (snd (next_n k s)) = boxmuller_double_state s
      /\ boxmuller_float (snd (next_n k s)) = boxmuller_float s
      /\ boxmuller_double (snd (next_n k s)) = boxmuller_double s).
Proof.
  split.
  - rewrite next_snd. repeat split.
  - apply next_n_boxmuller.
Qed.

(** * Further properties of the engine *)

(** ** Streams of [next] *)

Lemma next_n_restart (a : nat) (p : Z * xorwow_state) :
  snd (Nat.iter a (fun p => next (snd p)) p) = snd (next_n a (snd p)).
Proof.
  induction a as [|a IH]; [reflexivity|].
  rewrite next_n_S, Nat.iter_succ, !next_snd, IH. reflexivity.
Qed.

Lemma next_n_add (a b : nat) (s : xorwow_state) :
  snd (next_n a (snd (next_n b s))) = snd (next_n (a + b) s).
Proof.
  unfold next_n at 3. rewrite Nat.iter_add.
  rewrite next_n_restart. reflexivity.
Qed.

Lemma next_wf (s : xorwow_state) : wf_state s -> wf_state (snd (next s)).
Proof.
  intros [Hx Hd]. rewrite next_snd. split; cbn [x d].
  - now apply advance_x_wf.
  - apply word_wrap32.
Qed.

Lemma next_n_wf (k : nat) (s : xorwow_state) :
  wf_state s -> wf_state (snd (next_n k s)).
Proof.
  intros H. induction k as [|k IH]; [exact H|].
  rewrite next_n_S. now apply next_wf.
Qed.

(** ** The step of the shift register is injective *)

Lemma shl1_fixed_zero (t : Z) :
  0 <= t -> t = wrap32 (Z.shiftl t 1) -> t = 0.
Proof.
  intros H0 E. apply Z.bits_inj'. intros n Hn. rewrite Z.bits_0.
  revert n Hn. apply natlike_ind.
  - rewrite E. unfold wrap32.
    rewrite Z.testbit_mod_pow2, Z.shiftl_spec by lia.
    cbn [Z.sub Z.opp Z.add]. rewrite Z.testbit_neg_r by lia.
    apply andb_false_r.
  - intros n Hn IH. rewrite E. unfold wrap32.
    rewrite Z.testbit_mod_pow2, Z.shiftl_spec by lia.
    replace (Z.succ n - 1) with n by lia. rewrite IH. apply andb_false_r.
Qed.

Lemma shr2_fixed_zero (c : Z) : word c -> c = Z.shiftr c 2 -> c = 0.
Proof.
  intros Hw E.
  assert (H : forall k : nat, forall n, 0 <= n -> 32 <= n + 2 * Z.of_nat k ->
                                        Z.testbit c n = false).
  { induction k as [|k IH]; intros n Hn Hk.
    - apply word_high_bits; [exact Hw | lia].
    - rewrite E, Z.shiftr_spec by lia. apply IH; lia. }
  apply Z.bits_inj'. intros n Hn. rewrite Z.bits_0.
  apply (H 16%nat); lia.
Qed.

Lemma mix_zero_r (c : Z) :
  mix c 0
  = Z.lxor (Z.lxor c (Z.shiftr c 2))
           (wrap32 (Z.shiftl (Z.lxor c (Z.shiftr c 2)) 1)).
Proof. reflexivity. Qed.

Lemma mix_injective (a b e : Z) :
  word a -> word b -> mix a e = mix b e -> a = b.
Proof.
  intros Ha Hb E. apply Z.lxor_eq.
  assert (Hc : word (Z.lxor a b)) by now apply word_lxor.
  set (c := Z.lxor a b) in *.
  assert (Em : mix c 0 = 0).
  { unfold c. transitivity (mix (Z.lxor a b) (Z.lxor e e)).
    - now rewrite Z.lxor_nilpotent.
    - rewrite mix_lxor, E. apply Z.lxor_nilpotent. }
  rewrite mix_zero_r in Em. apply Z.lxor_eq in Em.
  assert (Ht : word (Z.lxor c (Z.shiftr c 2)))
    by (apply word_lxor; [exact Hc | apply word_shiftr; [exact Hc | lia]]).
  apply shl1_fixed_zero in Em; [|apply Ht].
  apply Z.lxor_eq in Em. now apply shr2_fixed_zero.
Qed.

Lemma advance_x_injective (u w : list Z) :
  wf_vec u -> wf_vec w -> advance_x u = advance_x w -> u = w.
Proof.
  intros [Hu Wu] [Hw Ww] E. vec5 u Hu. vec5 w Hw.
  rewrite !advance_x_5 in E. fold (mix u0 u4) in E. fold (mix w0 w4) in E.
  injection E as E1 E2 E3 E4 E5. subst w1 w2 w3 w4.
  assert (A : wf_vec [u0; u1; u2; u3; u4]) by (split; [reflexivity|exact Wu]).
  assert (B : wf_vec [w0; u1; u2; u3; u4]) by (split; [reflexivity|exact Ww]).
  apply wf_vec5 in A. apply wf_vec5 in B.
  f_equal. apply (mix_injective u0 w0 u4); tauto.
Qed.

Lemma vzero_wf : wf_vec vzero.
Proof.
  apply wf_vec5. unfold word. repeat split; lia.
Qed.

Lemma advance_x_nonzero (v : list Z) :
  wf_vec v -> v <> vzero -> advance_x v <> vzero.
Proof.
  intros Hv Hn E. apply Hn.
  apply advance_x_injective; [exact Hv | apply vzero_wf | exact E].
Qed.

Lemma iter_advance_x_nonzero (n : N) (v : list Z) :
  wf_vec v -> v <> vzero -> N.iter n advance_x v <> vzero.
Proof.
  intros Hv Hn. induction n as [|n IH] using N.peano_ind; [exact Hn|].
  rewrite N.iter_succ. apply advance_x_nonzero; [|exact IH].
  now apply iter_advance_x_wf.
Qed.

Lemma seeded_x_not_zero (seed : Z) (s : xorwow_state) :
  x (seeded seed s) <> vzero.
Proof.
  unfold seeded. cbn [x].
  generalize (wrap32 (1099087573 * Z.lxor (wrap32 seed) 2865916745)) as t0.
  generalize (wrap32 (2591861531
                      * Z.lxor (wrap32 (Z.shiftr seed 32)) 4158451677)) as t1.
  intros t1 t0 E.
  assert (E0 : wrap32 (123456789 + t0) = 0) by exact (f_equal (load 0) E).
  assert (E1 : Z.lxor 362436069 t0 = 0) by exact (f_equal (load 1) E).
  apply Z.lxor_eq in E1. subst t0. vm_compute in E0. discriminate E0.
Qed.

(** ** [discard] and [discard_subsequence] as positions in the stream *)

Lemma weyl_subsequence (d0 n : Z) :
  word d0 -> wrap32 (d0 + 2 ^ 67 * n * 362437) = d0.
Proof.
  intros Hd. unfold wrap32.
  replace (d0 + 2 ^ 67 * n * 362437)
    with (d0 + (2 ^ 35 * n * 362437) * 2 ^ 32) by lia.
  rewrite Z.mod_add by lia. now apply Z.mod_small.
Qed.

Lemma discard_subsequence_next_n
      (XORWOW_JUMP_MATRICES : nat) (XORWOW_JUMP_LOG2 : Z) (hcc_device : bool)
      (xorwow_sequence_jump_matrices : list (list Z))
      (n : Z) (s : xorwow_state) :
  (1 <= XORWOW_JUMP_MATRICES)%nat -> 0 <= XORWOW_JUMP_LOG2 ->
  table_powers XORWOW_JUMP_MATRICES XORWOW_JUMP_LOG2
               xorwow_sequence_jump_matrices (2 ^ 67) ->
  0 <= n < 2 ^ 64 -> wf_state s ->
  discard_subsequence XORWOW_JUMP_MATRICES XORWOW_JUMP_LOG2 hcc_device
                      xorwow_sequence_jump_matrices n s
  = snd (next_n (Z.to_nat (2 ^ 67 * n)) s).
Proof.
  intros HJ HL HT Hn [Hx Hd].
  rewrite next_n_snd by exact Hd.
  unfold discard_subsequence, jump, set_x.
  rewrite (jump_x_steps XORWOW_JUMP_MATRICES XORWOW_JUMP_LOG2
                        xorwow_sequence_jump_matrices (2 ^ 67))
    by (auto; lia).
  rewrite Z2Nat.id, weyl_subsequence by (try exact Hd; lia).
  f_equal. f_equal. lia.
Qed.

Section StreamPositions.

Variable XORWOW_JUMP_MATRICES : nat.
Variable XORWOW_JUMP_LOG2 : Z.
Variable hcc_device : bool.
Variable xorwow_jump_matrices : list (list Z).
Variable xorwow_sequence_jump_matrices : list (list Z).

Hypothesis table_nonempty : (1 <= XORWOW_JUMP_MATRICES)%nat.
Hypothesis log2_nonneg : 0 <= XORWOW_JUMP_LOG2.
Hypothesis step_table_ok :
  table_powers XORWOW_JUMP_MATRICES XORWOW_JUMP_LOG2 xorwow_jump_matrices 1.

Lemma discard_add (a b : Z) (s : xorwow_state) :
  0 <= a -> 0 <= b -> a + b < 2 ^ 64 -> wf_state s ->
  discard XORWOW_JUMP_MATRICES XORWOW_JUMP_LOG2 hcc_device
          xorwow_jump_matrices a
    (discard XORWOW_JUMP_MATRICES XORWOW_JUMP_LOG2 hcc_device
             xorwow_jump_matrices b s)
  = discard XORWOW_JUMP_MATRICES XORWOW_JUMP_LOG2 hcc_device
            xorwow_jump_matrices (a + b) s.
Proof.
  intros Ha Hb Hab Hs.
  rewrite (discard_next_n _ _ _ _ b s) by (auto; lia).
  rewrite (discard_next_n _ _ _ _ a) by (auto using next_n_wf; lia).
  rewrite (discard_next_n _ _ _ _ (a + b) s) by (auto; lia).
  rewrite next_n_add. f_equal. f_equal. lia.
Qed.

Hypothesis sequence_table_ok :
  table_powers XORWOW_JUMP_MATRICES XORWOW_JUMP_LOG2
               xorwow_sequence_jump_matrices (2 ^ 67).

Lemma discard_after_subsequence (sub off : Z) (s : xorwow_state) :
  0 <= sub < 2 ^ 64 -> 0 <= off < 2 ^ 64 -> wf_state s ->
  discard XORWOW_JUMP_MATRICES XORWOW_JUMP_LOG2 hcc_device
          xorwow_jump_matrices off
    (discard_subsequence XORWOW_JUMP_MATRICES XORWOW_JUMP_LOG2 hcc_device
                         xorwow_sequence_jump_matrices sub s)
  = snd (next_n (Z.to_nat (2 ^ 67 * sub + off)) s).
Proof.
  intros Hsub Hoff Hs.
  rewrite (discard_subsequence_next_n _ _ _ _ sub s) by auto.
  rewrite (discard_next_n _ _ _ _ off) by (auto using next_n_wf).
  rewrite next_n_add. f_equal. f_equal. lia.
Qed.

Lemma subsequence_after_discard (sub off : Z) (s : xorwow_state) :
  0 <= sub < 2 ^ 64 -> 0 <= off < 2 ^ 64 -> wf_state s ->
  discard_subsequence XORWOW_JUMP_MATRICES XORWOW_JUMP_LOG2 hcc_device
                      xorwow_sequence_jump_matrices sub
    (discard XORWOW_JUMP_MATRICES XORWOW_JUMP_LOG2 hcc_device
             xorwow_jump_matrices off s)
  = snd (next_n (Z.to_nat (2 ^ 67 * sub + off)) s).
Proof.
  intros Hsub Hoff Hs.
  rewrite (discard_next_n _ _ _ _ off s) by auto.
  rewrite (discard_subsequence_next_n _ _ _ _ sub) by (auto using next_n_wf).
  rewrite next_n_add. f_equal. f_equal. lia.
Qed.

End StreamPositions.

(** ** The Weyl sequence *)

Lemma weyl_multiple (k : Z) :
  (k * 362437) mod 2 ^ 32 = 0 <-> k mod 2 ^ 32 = 0.
Proof.
  rewrite !Z.mod_divide by lia. split.
  - intros H. apply Z.gauss with 362437.
    + now rewrite Z.mul_comm.
    + reflexivity.
  - intros H. now apply Z.divide_mul_l.
Qed.

Lemma wrap32_add_fixed (d0 r : Z) :
  word d0 -> (wrap32 (d0 + r) = d0 <-> r mod 2 ^ 32 = 0).
Proof.
  intros Hd. unfold wrap32, word in *.
  rewrite <- (Zplus_mod_idemp_r r d0).
  pose proof (Z.mod_pos_bound r (2 ^ 32) ltac:(lia)) as Hr.
  set (q := r mod 2 ^ 32) in *. split.
  - intros E. destruct (Z.lt_ge_cases (d0 + q) (2 ^ 32)) as [L|G].
    + rewrite Z.mod_small in E by lia. lia.
    + replace (d0 + q) with ((d0 + q - 2 ^ 32) + 1 * 2 ^ 32) in E by lia.
      rewrite Z.mod_add, Z.mod_small in E by lia. lia.
  - intros ->. rewrite Z.add_0_r. now apply Z.mod_small.
Qed.

(** ** The platform switch and the loops of [jump] *)

Lemma jump_x_platform
      (XORWOW_JUMP_MATRICES : nat) (XORWOW_JUMP_LOG2 : Z)
      (jump_matrices : list (list Z)) (v : Z) (xs : list Z) :
  (1 <= XORWOW_JUMP_MATRICES)%nat -> 0 <= XORWOW_JUMP_LOG2 ->
  0 <= v < 2 ^ 64 -> length xs = XORWOW_N ->
  jump_x XORWOW_JUMP_MATRICES XORWOW_JUMP_LOG2 true v jump_matrices xs
  = jump_x XORWOW_JUMP_MATRICES XORWOW_JUMP_LOG2 false v jump_matrices xs.
Proof.
  intros HJ HL Hv Hx. unfold jump_x.
  destruct (jump_residual_bound XORWOW_JUMP_MATRICES XORWOW_JUMP_LOG2
              jump_matrices v xs HJ HL Hv Hx) as [Hb Hl].
  destruct (jump_table_loop XORWOW_JUMP_MATRICES XORWOW_JUMP_LOG2
              XORWOW_JUMP_MATRICES jump_matrices 0 v xs) as [[mi' v'] xs'].
  cbn [fst snd] in *.
  destruct (0 <? v'); [|reflexivity].
  cbn [jump_fallback]. now apply jump_fallbacks_agree.
Qed.

Lemma jump_squaring_loop_ends (fuel : nat) :
  forall (v : Z) (a b xs : list Z),
    (1 <= fuel)%nat -> 0 <= v < 2 ^ Z.of_nat fuel ->
    fst (jump_squaring_loop fuel v a b xs) = 0.
Proof.
  induction fuel as [|fuel IH]; intros v a b xs Hf Hv; [lia|].
  cbn [jump_squaring_loop].
  rewrite Z.shiftr_div_pow2 by lia. change (2 ^ 1) with 2.
  rewrite Nat2Z.inj_succ, Z.pow_succ_r in Hv by lia.
  assert (Hh : 0 <= v / 2 < 2 ^ Z.of_nat fuel).
  { split; [apply Z.div_pos; lia | apply Z.div_lt_upper_bound; lia]. }
  destruct (Z.ltb_spec 0 (v / 2)) as [Hpos|Hz].
  - apply IH; [|exact Hh].
    destruct fuel; [simpl in Hh; lia | lia].
  - cbn [fst]. lia.
Qed.

Lemma jump_table_loop_ends
      (XORWOW_JUMP_MATRICES : nat) (XORWOW_JUMP_LOG2 : Z)
      (jump_matrices : list (list Z)) (fuel : nat) :
  forall (mi : nat) (v : Z) (xs : list Z),
    (mi <= XORWOW_JUMP_MATRICES)%nat ->
    (XORWOW_JUMP_MATRICES <= fuel + mi)%nat ->
    let r := jump_table_loop XORWOW_JUMP_MATRICES XORWOW_JUMP_LOG2 fuel
                             jump_matrices mi v xs in
    (mi <= fst (fst r) <= XORWOW_JUMP_MATRICES)%nat
    /\ (0 <? snd (fst r)) && (fst (fst r) <? XORWOW_JUMP_MATRICES)%nat = false.
Proof.
  induction fuel as [|fuel IH]; intros mi v xs Hm Hf; cbn [jump_table_loop].
  - cbn [fst snd]. split; [lia|].
    replace (mi <? XORWOW_JUMP_MATRICES)%nat with false by nat_cases.
    apply andb_false_r.
  - destruct ((0 <? v) && (mi <? XORWOW_JUMP_MATRICES)%nat) eqn:E.
    + apply andb_prop in E. destruct E as [_ E]. apply Nat.ltb_lt in E.
      match goal with
      | |- context [jump_table_loop _ _ fuel _ (S mi) ?v' ?xs'] =>
          destruct (IH (S mi) v' xs') as [[A B] C]; try lia
      end.
      split; [lia | exact C].
    + cbn [fst snd]. split; [lia | exact E].
Qed.

(** ** The all-zero register *)

Lemma inplace_vzero (m : list Z) :
  detail.mul_mat_vec_inplace m vzero 0 = vzero.
Proof.
  rewrite mul_mat_vec_inplace_x by reflexivity.
  exact (proj1 (mulv_linear m)).
Qed.

Lemma iter_inplace_vzero (m : list Z) (n : N) :
  N.iter n (fun xs => detail.mul_mat_vec_inplace m xs 0) vzero = vzero.
Proof.
  apply (N.iter_invariant n _ _ (fun y => y = vzero)); [|reflexivity].
  intros y ->. apply inplace_vzero.
Qed.

Lemma jump_table_loop_vzero
      (XORWOW_JUMP_MATRICES : nat) (XORWOW_JUMP_LOG2 : Z)
      (jump_matrices : list (list Z)) (fuel : nat) :
  forall (mi : nat) (v : Z),
    snd (jump_table_loop XORWOW_JUMP_MATRICES XORWOW_JUMP_LOG2 fuel
                         jump_matrices mi v vzero) = vzero.
Proof.
  induction fuel as [|fuel IH]; intros mi v; cbn [jump_table_loop];
    [reflexivity|].
  destruct ((0 <? v) && (mi <? XORWOW_JUMP_MATRICES)%nat); [|reflexivity].
  rewrite iter_inplace_vzero. apply IH.
Qed.

Lemma jump_squaring_loop_vzero (fuel : nat) :
  forall (v : Z) (a b : list Z),
    snd (jump_squaring_loop fuel v a b vzero) = vzero.
Proof.
  induction fuel as [|fuel IH]; intros v a b; cbn [jump_squaring_loop];
    [reflexivity|].
  rewrite inplace_vzero.
  replace (if negb (Z.land v 1 =? 0) then vzero else vzero) with vzero
    by (destruct (negb (Z.land v 1 =? 0)); reflexivity).
  destruct (0 <? Z.shiftr v 1); [apply IH | reflexivity].
Qed.

Lemma jump_x_vzero
      (XORWOW_JUMP_MATRICES : nat) (XORWOW_JUMP_LOG2 : Z) (hcc : bool)
      (jump_matrices : list (list Z)) (v : Z) :
  jump_x XORWOW_JUMP_MATRICES XORWOW_JUMP_LOG2 hcc v jump_matrices vzero
  = vzero.
Proof.
  unfold jump_x.
  pose proof (jump_table_loop_vzero XORWOW_JUMP_MATRICES XORWOW_JUMP_LOG2
                jump_matrices XORWOW_JUMP_MATRICES 0 v) as E.
  destruct (jump_table_loop XORWOW_JUMP_MATRICES XORWOW_JUMP_LOG2
              XORWOW_JUMP_MATRICES jump_matrices 0 v vzero) as [[mi' v'] xs'].
  cbn [snd] in E. subst xs'.
  destruct (0 <? v'); [|reflexivity].
  destruct hcc; cbn [jump_fallback].
  - apply iter_inplace_vzero.
  - apply jump_squaring_loop_vzero.
Qed.

(** * Further verified properties *)

(** X1.  [mul_mat_vec_inplace] is linear over GF(2): for every flat matrix
    [m], the product of the word-wise XOR of two five-word vectors is the
    XOR of their products. *)
Theorem mul_mat_vec_inplace_linear (m u w : list Z) :
  length u = XORWOW_N -> length w = XORWOW_N ->
  detail.mul_mat_vec_inplace m (vxor u w) 0
  = vxor (detail.mul_mat_vec_inplace m u 0)
         (detail.mul_mat_vec_inplace m w 0).
Proof.
  intros Hu Hw.
  rewrite !mul_mat_vec_inplace_x by (auto using vxor_length).
  now apply mulv_linear.
Qed.

Lemma mul_mat_vec_inplace_linear_witness :
  detail.mul_mat_vec_inplace (matrix_of advance_x)
                             (vxor [1; 2; 3; 4; 5] [6; 7; 8; 9; 10]) 0
  = vxor (detail.mul_mat_vec_inplace (matrix_of advance_x) [1; 2; 3; 4; 5] 0)
         (detail.mul_mat_vec_inplace (matrix_of advance_x) [6; 7; 8; 9; 10] 0).
Proof.
  apply (mul_mat_vec_inplace_linear (matrix_of advance_x)
                                    [1; 2; 3; 4; 5] [6; 7; 8; 9; 10]).
  - reflexivity.
  - reflexivity.
Defined.

(** X2.  [mul_mat_mat_inplace(a, b)] composes: multiplying a vector by the
    matrix it leaves in [a] is multiplying by the old [a] and then by
    [b]. *)
Theorem mul_mat_mat_inplace_composes (a b v : list Z) :
  length a = XORWOW_SIZE -> length v = XORWOW_N ->
  detail.mul_mat_vec_inplace (detail.mul_mat_mat_inplace a b) v 0
  = detail.mul_mat_vec_inplace b (detail.mul_mat_vec_inplace a v 0) 0.
Proof.
  intros Ha Hv.
  rewrite (mul_mat_vec_inplace_x a v) by exact Hv.
  rewrite !mul_mat_vec_inplace_x by (auto using mulv_length).
  now apply mulv_mul_mat_mat.
Qed.

Lemma mul_mat_mat_inplace_composes_witness :
  detail.mul_mat_vec_inplace
    (detail.mul_mat_mat_inplace (repeat 1 XORWOW_SIZE) (matrix_of advance_x))
    [1; 2; 3; 4; 5] 0
  = detail.mul_mat_vec_inplace (matrix_of advance_x)
      (detail.mul_mat_vec_inplace (repeat 1 XORWOW_SIZE) [1; 2; 3; 4; 5] 0) 0.
Proof.
  apply (mul_mat_mat_inplace_composes (repeat 1 XORWOW_SIZE)
                                      (matrix_of advance_x) [1; 2; 3; 4; 5]).
  - apply repeat_length.
  - reflexivity.
Defined.

(** X3.  [mul_mat_vec_inplace(m, arr + off)] on five words inside a longer
    array replaces exactly those five words by their product with [m]: the
    array keeps its length and every word outside [off .. off + 4]. *)
Theorem mul_mat_vec_inplace_at_offset (m arr : list Z) (off : nat) :
  (off + XORWOW_N <= length arr)%nat ->
  length (detail.mul_mat_vec_inplace m arr off) = length arr
  /\ slice (detail.mul_mat_vec_inplace m arr off) off
     = detail.mul_mat_vec_inplace m (slice arr off) 0
  /\ forall j : nat,
       (j < off \/ off + XORWOW_N <= j)%nat ->
       load j (detail.mul_mat_vec_inplace m arr off) = load j arr.
Proof.
  intros H. split; [apply copy_vec_length|]. split.
  - rewrite (mul_mat_vec_inplace_x m (slice arr off)) by apply slice_length.
    unfold detail.mul_mat_vec_inplace, mulv.
    rewrite slice_copy_vec_same by (auto using mul_mat_vec_length).
    apply mul_mat_vec_slice.
  - intros j Hj. unfold detail.mul_mat_vec_inplace.
    rewrite load_copy_vec. nat_cases.
Qed.

Lemma mul_mat_vec_inplace_at_offset_witness :
  length (detail.mul_mat_vec_inplace (matrix_of advance_x)
                                     [9; 1; 2; 3; 4; 5; 8] 1)
  = length [9; 1; 2; 3; 4; 5; 8]
  /\ slice (detail.mul_mat_vec_inplace (matrix_of advance_x)
                                       [9; 1; 2; 3; 4; 5; 8] 1) 1
     = detail.mul_mat_vec_inplace (matrix_of advance_x)
                                  (slice [9; 1; 2; 3; 4; 5; 8] 1) 0
  /\ forall j : nat,
       (j < 1 \/ 1 + XORWOW_N <= j)%nat ->
       load j (detail.mul_mat_vec_inplace (matrix_of advance_x)
                                          [9; 1; 2; 3; 4; 5; 8] 1)
       = load j [9; 1; 2; 3; 4; 5; 8].
Proof.
  apply (mul_mat_vec_inplace_at_offset (matrix_of advance_x)
                                       [9; 1; 2; 3; 4; 5; 8] 1).
  unfold XORWOW_N. cbn [length]. lia.
Defined.



(** X5.  [copy_mat(dst, src)] overwrites all of [dst]: whatever [dst] held,
    it ends up equal to [src]. *)
Theorem copy_mat_copies (dst src : list Z) :
  length dst = XORWOW_SIZE -> length src = XORWOW_SIZE ->
  detail.copy_mat dst src = src.
Proof. apply copy_mat_full. Qed.

Lemma copy_mat_copies_witness :
  detail.copy_mat (repeat 7 XORWOW_SIZE) (repeat 1 XORWOW_SIZE)
  = repeat 1 XORWOW_SIZE.
Proof.
  apply (copy_mat_copies (repeat 7 XORWOW_SIZE) (repeat 1 XORWOW_SIZE)).
  - apply repeat_length.
  - apply repeat_length.
Defined.

(** X6.  A distance of zero is a no-op: [skipahead(0, state)] and
    [skipahead_subsequence(0, state)] return the state unchanged, whatever
    the tables hold and on either platform. *)
Theorem skipahead_zero
        (XORWOW_JUMP_MATRICES : nat) (XORWOW_JUMP_LOG2 : Z) (hcc_device : bool)
        (xorwow_jump_matrices xorwow_sequence_jump_matrices : list (list Z))
        (state : xorwow_state) :
  word (d state) ->
  skipahead XORWOW_JUMP_MATRICES XORWOW_JUMP_LOG2 hcc_device
            xorwow_jump_matrices 0 state = state
  /\ skipahead_subsequence XORWOW_JUMP_MATRICES XORWOW_JUMP_LOG2 hcc_device
                           xorwow_sequence_jump_matrices 0 state = state.
Proof.
  intros Hd. unfold skipahead, skipahead_subsequence. split.
  - now apply discard_0.
  - apply discard_subsequence_0.
Qed.

Lemma skipahead_zero_witness :
  skipahead 32 2 false [] 0 (mk_state [1; 2; 3; 4; 5] 6 1 0 7 8)
  = mk_state [1; 2; 3; 4; 5] 6 1 0 7 8
  /\ skipahead_subsequence 32 2 false [] 0 (mk_state [1; 2; 3; 4; 5] 6 1 0 7 8)
     = mk_state [1; 2; 3; 4; 5] 6 1 0 7 8.
Proof.
  apply (skipahead_zero 32 2 false [] [] (mk_state [1; 2; 3; 4; 5] 6 1 0 7 8)).
  unfold word. cbn [d]. lia.
Defined.

(** X7.  The platform switch does not change the result: for every 64-bit
    offset and every table, [discard] with the linear fallback of the HCC
    device build and [discard] with the squaring fallback leave the same
    state. *)
Theorem discard_platform_independent
        (XORWOW_JUMP_MATRICES : nat) (XORWOW_JUMP_LOG2 : Z)
        (xorwow_jump_matrices : list (list Z)) (n : Z) (s : xorwow_state) :
  (1 <= XORWOW_JUMP_MATRICES)%nat -> 0 <= XORWOW_JUMP_LOG2 ->
  0 <= n < 2 ^ 64 -> length (x s) = XORWOW_N ->
  discard XORWOW_JUMP_MATRICES XORWOW_JUMP_LOG2 true xorwow_jump_matrices n s
  = discard XORWOW_JUMP_MATRICES XORWOW_JUMP_LOG2 false xorwow_jump_matrices
            n s.
Proof.
  intros HJ HL Hn Hx. unfold discard, jump.
  now rewrite jump_x_platform.
Qed.

Lemma discard_platform_independent_witness :
  discard 32 2 true (power_table 32 2 1) (2 ^ 63 + 5)
          (seeded 0 (mk_state [] 0 0 0 0 0))
  = discard 32 2 false (power_table 32 2 1) (2 ^ 63 + 5)
            (seeded 0 (mk_state [] 0 0 0 0 0)).
Proof.
  apply (discard_platform_independent 32 2 (power_table 32 2 1) (2 ^ 63 + 5)
           (seeded 0 (mk_state [] 0 0 0 0 0))).
  - lia.
  - lia.
  - lia.
  - reflexivity.
Defined.

(** X8.  Skips add up: with a step table of the powers of the single step,
    [skipahead(b)] followed by [skipahead(a)] is [skipahead(a + b)], as long
    as [a + b] fits in 64 bits. *)
Theorem skipahead_composes
        (XORWOW_JUMP_MATRICES : nat) (XORWOW_JUMP_LOG2 : Z) (hcc_device : bool)
        (xorwow_jump_matrices : list (list Z)) (a b : Z)
        (state : xorwow_state) :
  (1 <= XORWOW_JUMP_MATRICES)%nat -> 0 <= XORWOW_JUMP_LOG2 ->
  table_powers XORWOW_JUMP_MATRICES XORWOW_JUMP_LOG2 xorwow_jump_matrices 1 ->
  0 <= a -> 0 <= b -> a + b < 2 ^ 64 -> wf_state state ->
  skipahead XORWOW_JUMP_MATRICES XORWOW_JUMP_LOG2 hcc_device
            xorwow_jump_matrices a
    (skipahead XORWOW_JUMP_MATRICES XORWOW_JUMP_LOG2 hcc_device
               xorwow_jump_matrices b state)
  = skipahead XORWOW_JUMP_MATRICES XORWOW_JUMP_LOG2 hcc_device
              xorwow_jump_matrices (a + b) state.
Proof.
  intros. unfold skipahead. now apply discard_add.
Qed.

Lemma skipahead_composes_witness :
  skipahead 32 2 false (power_table 32 2 1) 7
    (skipahead 32 2 false (power_table 32 2 1) (2 ^ 40)
               (seeded 0 (mk_state [] 0 0 0 0 0)))
  = skipahead 32 2 false (power_table 32 2 1) (7 + 2 ^ 40)
              (seeded 0 (mk_state [] 0 0 0 0 0)).
Proof.
  apply (skipahead_composes 32 2 false (power_table 32 2 1) 7 (2 ^ 40)
                            (seeded 0 (mk_state [] 0 0 0 0 0))).
  - lia.
  - lia.
  - apply power_table_ok.
  - lia.
  - lia.
  - lia.
  - apply seeded_wf.
Defined.

(** X9.  [skipahead] and [skipahead_subsequence] commute, when each table
    holds the powers of the single step for its unit (1 step, 2^67
    steps). *)
Theorem skipahead_commutes_with_subsequence
        (XORWOW_JUMP_MATRICES : nat) (XORWOW_JUMP_LOG2 : Z) (hcc_device : bool)
        (xorwow_jump_matrices xorwow_sequence_jump_matrices : list (list Z))
        (sub off : Z) (state : xorwow_state) :
  (1 <= XORWOW_JUMP_MATRICES)%nat -> 0 <= XORWOW_JUMP_LOG2 ->
  table_powers XORWOW_JUMP_MATRICES XORWOW_JUMP_LOG2 xorwow_jump_matrices 1 ->
  table_powers XORWOW_JUMP_MATRICES XORWOW_JUMP_LOG2
               xorwow_sequence_jump_matrices (2 ^ 67) ->
  0 <= sub < 2 ^ 64 -> 0 <= off < 2 ^ 64 -> wf_state state ->
  skipahead XORWOW_JUMP_MATRICES XORWOW_JUMP_LOG2 hcc_device
            xorwow_jump_matrices off
    (skipahead_subsequence XORWOW_JUMP_MATRICES XORWOW_JUMP_LOG2 hcc_device
                           xorwow_sequence_jump_matrices sub state)
  = skipahead_subsequence XORWOW_JUMP_MATRICES XORWOW_JUMP_LOG2 hcc_device
                          xorwow_sequence_jump_matrices sub
      (skipahead XORWOW_JUMP_MATRICES XORWOW_JUMP_LOG2 hcc_device
                 xorwow_jump_matrices off state).
Proof.
  intros HJ HL H1 H2 Hsub Hoff Hs. unfold skipahead, skipahead_subsequence.
  rewrite discard_after_subsequence, subsequence_after_discard by assumption.
  reflexivity.
Qed.

Lemma skipahead_commutes_with_subsequence_witness :
  skipahead 32 2 false (power_table 32 2 1) 5
    (skipahead_subsequence 32 2 false (power_table 32 2 (2 ^ 67)) 3
                           (seeded 0 (mk_state [] 0 0 0 0 0)))
  = skipahead_subsequence 32 2 false (power_table 32 2 (2 ^ 67)) 3
      (skipahead 32 2 false (power_table 32 2 1) 5
                 (seeded 0 (mk_state [] 0 0 0 0 0))).
Proof.
  apply (skipahead_commutes_with_subsequence
           32 2 false (power_table 32 2 1) (power_table 32 2 (2 ^ 67)) 3 5
           (seeded 0 (mk_state [] 0 0 0 0 0))).
  - lia.
  - lia.
  - apply power_table_ok.
  - apply power_table_ok.
  - lia.
  - lia.
  - apply seeded_wf.
Defined.

(** X10.  [discard_subsequence(n)] leaves exactly the state that
    [n * 2^67] calls of [next] leave, the Weyl value [d] included (2^67
    steps add a multiple of 2^32 to it), when its table holds the powers of
    the single step in units of 2^67 steps. *)
Theorem discard_subsequence_stream
        (XORWOW_JUMP_MATRICES : nat) (XORWOW_JUMP_LOG2 : Z) (hcc_device : bool)
        (xorwow_sequence_jump_matrices : list (list Z))
        (n : Z) (s : xorwow_state) :
  (1 <= XORWOW_JUMP_MATRICES)%nat -> 0 <= XORWOW_JUMP_LOG2 ->
  table_powers XORWOW_JUMP_MATRICES XORWOW_JUMP_LOG2
               xorwow_sequence_jump_matrices (2 ^ 67) ->
  0 <= n < 2 ^ 64 -> wf_state s ->
  discard_subsequence XORWOW_JUMP_MATRICES XORWOW_JUMP_LOG2 hcc_device
                      xorwow_sequence_jump_matrices n s
  = snd (next_n (Z.to_nat (2 ^ 67 * n)) s).
Proof. apply discard_subsequence_next_n. Qed.

Lemma discard_subsequence_stream_witness :
  discard_subsequence 32 2 false (power_table 32 2 (2 ^ 67)) 3
                      (seeded 0 (mk_state [] 0 0 0 0 0))
  = snd (next_n (Z.to_nat (2 ^ 67 * 3)) (seeded 0 (mk_state [] 0 0 0 0 0))).
Proof.
  apply (discard_subsequence_stream 32 2 false (power_table 32 2 (2 ^ 67)) 3
                                    (seeded 0 (mk_state [] 0 0 0 0 0))).
  - lia.
  - lia.
  - apply power_table_ok.
  - lia.
  - apply seeded_wf.
Defined.

(** X11.  Where a constructed engine stands in the stream:
    [rocrand_init(seed, subsequence, offset)] gives the state that
    [subsequence * 2^67 + offset] calls of [next] lead to from
    [rocrand_init(seed, 0, 0)], whatever [*state] held before. *)
Theorem rocrand_init_stream_position
        (XORWOW_JUMP_MATRICES : nat) (XORWOW_JUMP_LOG2 : Z) (hcc_device : bool)
        (xorwow_jump_matrices xorwow_sequence_jump_matrices : list (list Z))
        (seed sub off : Z) (tmp old old0 : xorwow_state) :
  (1 <= XORWOW_JUMP_MATRICES)%nat -> 0 <= XORWOW_JUMP_LOG2 ->
  table_powers XORWOW_JUMP_MATRICES XORWOW_JUMP_LOG2 xorwow_jump_matrices 1 ->
  table_powers XORWOW_JUMP_MATRICES XORWOW_JUMP_LOG2
               xorwow_sequence_jump_matrices (2 ^ 67) ->
  0 <= sub < 2 ^ 64 -> 0 <= off < 2 ^ 64 ->
  rocrand_init XORWOW_JUMP_MATRICES XORWOW_JUMP_LOG2 hcc_device
               xorwow_jump_matrices xorwow_sequence_jump_matrices
               seed sub off tmp old
  = snd (next_n (Z.to_nat (2 ^ 67 * sub + off))
                (rocrand_init XORWOW_JUMP_MATRICES XORWOW_JUMP_LOG2 hcc_device
                              xorwow_jump_matrices
                              xorwow_sequence_jump_matrices
                              seed 0 0 tmp old0)).
Proof.
  intros HJ HL H1 H2 Hsub Hoff. unfold rocrand_init.
  rewrite init_00, init_seeded.
  apply discard_after_subsequence; auto using seeded_wf.
Qed.

Lemma rocrand_init_stream_position_witness :
  rocrand_init 32 2 false (power_table 32 2 1) (power_table 32 2 (2 ^ 67))
               7 3 5 (mk_state [] 0 0 0 0 0) (mk_state [] 0 0 0 0 0)
  = snd (next_n (Z.to_nat (2 ^ 67 * 3 + 5))
                (rocrand_init 32 2 false (power_table 32 2 1)
                              (power_table 32 2 (2 ^ 67)) 7 0 0
                              (mk_state [] 0 0 0 0 0)
                              (mk_state [1] 2 3 4 5 6))).
Proof.
  apply (rocrand_init_stream_position
           32 2 false (power_table 32 2 1) (power_table 32 2 (2 ^ 67)) 7 3 5
           (mk_state [] 0 0 0 0 0) (mk_state [] 0 0 0 0 0)
           (mk_state [1] 2 3 4 5 6)).
  - lia.
  - lia.
  - apply power_table_ok.
  - apply power_table_ok.
  - lia.
  - lia.
Defined.

(** X12.  For every seed, the default seed included, the constructor never
    builds the all-zero register, and no number of calls of [next] leads
    from the seeded state to it. *)
Theorem seeded_register_never_zero
        (XORWOW_JUMP_MATRICES : nat) (XORWOW_JUMP_LOG2 : Z) (hcc_device : bool)
        (xorwow_jump_matrices xorwow_sequence_jump_matrices : list (list Z))
        (seed : Z) (k : nat) (mem : xorwow_state) :
  x (snd (next_n k (init XORWOW_JUMP_MATRICES XORWOW_JUMP_LOG2 hcc_device
                         xorwow_jump_matrices xorwow_sequence_jump_matrices
                         seed 0 0 mem)))
  <> repeat 0 XORWOW_N
  /\ x (xorwow_engine_default XORWOW_JUMP_MATRICES XORWOW_JUMP_LOG2
                              hcc_device xorwow_jump_matrices
                              xorwow_sequence_jump_matrices mem)
     <> repeat 0 XORWOW_N.
Proof.
  unfold xorwow_engine_default. rewrite !init_00. split.
  - rewrite next_n_snd by apply seeded_wf. cbn [x].
    apply iter_advance_x_nonzero; [apply seeded_wf | apply seeded_x_not_zero].
  - apply seeded_x_not_zero.
Qed.

(** X13.  With tables of the powers of the single step, the register of a
    constructed engine is not all-zero for any seed, subsequence and
    offset. *)
Theorem init_register_never_zero
        (XORWOW_JUMP_MATRICES : nat) (XORWOW_JUMP_LOG2 : Z) (hcc_device : bool)
        (xorwow_jump_matrices xorwow_sequence_jump_matrices : list (list Z))
        (seed sub off : Z) (mem : xorwow_state) :
  (1 <= XORWOW_JUMP_MATRICES)%nat -> 0 <= XORWOW_JUMP_LOG2 ->
  table_powers XORWOW_JUMP_MATRICES XORWOW_JUMP_LOG2 xorwow_jump_matrices 1 ->
  table_powers XORWOW_JUMP_MATRICES XORWOW_JUMP_LOG2
               xorwow_sequence_jump_matrices (2 ^ 67) ->
  0 <= sub < 2 ^ 64 -> 0 <= off < 2 ^ 64 ->
  x (init XORWOW_JUMP_MATRICES XORWOW_JUMP_LOG2 hcc_device
          xorwow_jump_matrices xorwow_sequence_jump_matrices
          seed sub off mem)
  <> repeat 0 XORWOW_N.
Proof.
  intros HJ HL H1 H2 Hsub Hoff.
  rewrite init_seeded, discard_after_subsequence
    by (auto using seeded_wf).
  rewrite next_n_snd by apply seeded_wf. cbn [x].
  apply iter_advance_x_nonzero; [apply seeded_wf | apply seeded_x_not_zero].
Qed.

Lemma init_register_never_zero_witness :
  x (init 32 2 false (power_table 32 2 1) (power_table 32 2 (2 ^ 67))
          7 3 5 (mk_state [] 0 0 0 0 0))
  <> repeat 0 XORWOW_N.
Proof.
  apply (init_register_never_zero
           32 2 false (power_table 32 2 1) (power_table 32 2 (2 ^ 67)) 7 3 5
           (mk_state [] 0 0 0 0 0)).
  - lia.
  - lia.
  - apply power_table_ok.
  - apply power_table_ok.
  - lia.
  - lia.
Defined.

(** X14.  [rocrand] (that is, [next]) is injective on states of 32-bit
    words: two different states never step to the same state, so streams
    never merge. *)
Theorem next_injective (s1 s2 : xorwow_state) :
  wf_state s1 -> wf_state s2 ->
  snd (rocrand s1) = snd (rocrand s2) -> s1 = s2.
Proof.
  intros [Hx1 Hd1] [Hx2 Hd2] E. unfold rocrand in E. rewrite !next_snd in E.
  destruct s1 as [v1 d1 a1 b1 c1 e1], s2 as [v2 d2 a2 b2 c2 e2].
  cbn [x d boxmuller_float_state boxmuller_double_state boxmuller_float
         boxmuller_double] in *.
  assert (Ex : advance_x v1 = advance_x v2) by exact (f_equal x E).
  assert (Ed : wrap32 (d1 + 362437) = wrap32 (d2 + 362437))
    by exact (f_equal d E).
  assert (Ea : a1 = a2) by exact (f_equal boxmuller_float_state E).
  assert (Eb : b1 = b2) by exact (f_equal boxmuller_double_state E).
  assert (Ec : c1 = c2) by exact (f_equal boxmuller_float E).
  assert (Ee : e1 = e2) by exact (f_equal boxmuller_double E).
  apply advance_x_injective in Ex; [|assumption|assumption].
  assert (d1 = d2).
  { unfold wrap32, word in *.
    pose proof (Z.div_mod (d1 + 362437) (2 ^ 32) ltac:(lia)) as D1.
    pose proof (Z.div_mod (d2 + 362437) (2 ^ 32) ltac:(lia)) as D2.
    rewrite Ed in D1.
    pose proof (Z.mod_pos_bound (d2 + 362437) (2 ^ 32) ltac:(lia)).
    lia. }
  congruence.
Qed.

Lemma next_injective_witness :
  seeded 0 (mk_state [] 0 0 0 0 0) = seeded 0 (mk_state [] 0 0 0 0 0).
Proof.
  apply (next_injective (seeded 0 (mk_state [] 0 0 0 0 0))
                        (seeded 0 (mk_state [] 0 0 0 0 0))).
  - apply seeded_wf.
  - apply seeded_wf.
  - reflexivity.
Defined.

(** X15.  The Weyl value has period 2^32 exactly: after [k] calls of [next]
    the field [d] is back at its starting value if and only if [k] is a
    multiple of 2^32. *)
Theorem weyl_period (k : nat) (s : xorwow_state) :
  word (d s) ->
  d (snd (next_n k s)) = d s <-> Z.of_nat k mod 2 ^ 32 = 0.
Proof.
  intros Hd. rewrite next_n_snd by exact Hd. cbn [d].
  rewrite wrap32_add_fixed by exact Hd. apply weyl_multiple.
Qed.

Lemma weyl_period_witness :
  d (snd (next_n 3 (mk_state [1; 2; 3; 4; 5] 6 0 0 0 0)))
  = d (mk_state [1; 2; 3; 4; 5] 6 0 0 0 0)
  <-> Z.of_nat 3 mod 2 ^ 32 = 0.
Proof.
  apply (weyl_period 3 (mk_state [1; 2; 3; 4; 5] 6 0 0 0 0)).
  unfold word. cbn [d]. lia.
Defined.

(** X16.  The squaring loop of [jump] ends: for every 64-bit distance it
    reaches [v = 0] within 64 rounds, whatever the matrices and the
    register hold. *)
Theorem jump_squaring_loop_terminates (v : Z) (a b xs : list Z) :
  0 <= v < 2 ^ 64 -> fst (jump_squaring_loop 64 v a b xs) = 0.
Proof.
  intros Hv. apply jump_squaring_loop_ends; [lia | exact Hv].
Qed.

Lemma jump_squaring_loop_terminates_witness :
  fst (jump_squaring_loop 64 (2 ^ 64 - 1) [] [] [1; 2; 3; 4; 5]) = 0.
Proof.
  apply (jump_squaring_loop_terminates (2 ^ 64 - 1) [] [] [1; 2; 3; 4; 5]).
  lia.
Defined.

(** X17.  The table loop of [jump] ends with its condition
    [v > 0 && mi < XORWOW_JUMP_MATRICES] false and with [mi] within the
    table: it never reads past the last matrix. *)
Theorem jump_table_loop_exits
        (XORWOW_JUMP_MATRICES : nat) (XORWOW_JUMP_LOG2 : Z)
        (jump_matrices : list (list Z)) (v : Z) (xs : list Z) :
  let r := jump_table_loop XORWOW_JUMP_MATRICES XORWOW_JUMP_LOG2
                           XORWOW_JUMP_MATRICES jump_matrices 0 v xs in
  (fst (fst r) <= XORWOW_JUMP_MATRICES)%nat
  /\ (0 <? snd (fst r)) && (fst (fst r) <? XORWOW_JUMP_MATRICES)%nat = false.
Proof.
  destruct (jump_table_loop_ends XORWOW_JUMP_MATRICES XORWOW_JUMP_LOG2
              jump_matrices XORWOW_JUMP_MATRICES 0 v xs) as [[_ A] B];
    try lia.
  split; assumption.
Qed.

(** X18.  The all-zero register is absorbing: [next], [discard] and
    [discard_subsequence] all leave an all-zero [x] all-zero, for every
    distance, every table and either platform. *)
Theorem zero_register_absorbing
        (XORWOW_JUMP_MATRICES : nat) (XORWOW_JUMP_LOG2 : Z) (hcc_device : bool)
        (xorwow_jump_matrices xorwow_sequence_jump_matrices : list (list Z))
        (n : Z) (s : xorwow_state) :
  x s = repeat 0 XORWOW_N ->
  x (snd (next s)) = repeat 0 XORWOW_N
  /\ x (discard XORWOW_JUMP_MATRICES XORWOW_JUMP_LOG2 hcc_device
                xorwow_jump_matrices n s) = repeat 0 XORWOW_N
  /\ x (discard_subsequence XORWOW_JUMP_MATRICES XORWOW_JUMP_LOG2 hcc_device
                            xorwow_sequence_jump_matrices n s)
     = repeat 0 XORWOW_N.
Proof.
  intros E. rewrite next_snd. unfold discard, discard_subsequence, jump.
  cbn [x set_x set_d]. rewrite E. fold vzero.
  split; [reflexivity|]. split; apply jump_x_vzero.
Qed.

Lemma zero_register_absorbing_witness :
  x (snd (next (mk_state (repeat 0 XORWOW_N) 6 0 0 0 0)))
  = repeat 0 XORWOW_N
  /\ x (discard 32 2 false (power_table 32 2 1) 12345
                (mk_state (repeat 0 XORWOW_N) 6 0 0 0 0))
     = repeat 0 XORWOW_N
  /\ x (discard_subsequence 32 2 false (power_table 32 2 (2 ^ 67)) 12345
                            (mk_state (repeat 0 XORWOW_N) 6 0 0 0 0))
     = repeat 0 XORWOW_N.
Proof.
  apply (zero_register_absorbing
           32 2 false (power_table 32 2 1) (power_table 32 2 (2 ^ 67)) 12345
           (mk_state (repeat 0 XORWOW_N) 6 0 0 0 0)).
  reflexivity.
Defined.
